(** * The build script [build.ts]: argument parsing and build orchestration

    A shallow embedding of the production build script and the proofs of the
    properties its specification states, followed by the handlers of the
    demo server [src/index.ts] and the fetcher of the page
    [src/APITester.tsx], with the properties their code shows.

    Modelling conventions.
    - A JavaScript string is a [string]: a sequence of code units, of which
      the units below 256 are covered.
    - A JavaScript object used as a dictionary ([config], the nested maps,
      the build request) is a finite map [gmap string JsValue] of its own
      properties.  The inherited accessor [__proto__] is outside the model.
    - A JavaScript array is its list of elements together with the named
      properties attached to it; the index and [length] keys of an array,
      which go through the array's own setter, are outside the model.
    - A JavaScript number is the rational it is read from, which is the
      number the runtime holds for whole numbers below 2^53 and for the
      decimal fractions a double holds exactly; the script does no
      arithmetic on configuration numbers.  Byte counts are naturals, the
      divisions by 1024 are exact, and where the runtime prints a number
      from its binary form ([toFixed] from 10^21 on) the number is first
      rounded to the nearest double. *)

From Stdlib Require Import ZArith QArith Qround Ascii String List Lia.
From stdpp Require Import gmap strings list fin_maps pretty.

#[local] Set Warnings "-register-all".

(** ** String primitives of the runtime *)

Module Js.

(** [\d] *)
Definition is_digit (c : ascii) : bool :=
  (48 <=? nat_of_ascii c)%nat && (nat_of_ascii c <=? 57)%nat.

(** [[a-z]] *)
Definition is_lower (c : ascii) : bool :=
  (97 <=? nat_of_ascii c)%nat && (nat_of_ascii c <=? 122)%nat.

(** [c.toUpperCase()] for a character matched by [[a-z]]; other characters
    never reach it in the script. *)
Definition toUpperCase (c : ascii) : ascii :=
  if is_lower c then ascii_of_nat (nat_of_ascii c - 32) else c.

(** White space and line terminators removed by [String.prototype.trim]
    among the code units below 256: TAB, LF, VT, FF, CR, SP, NBSP. *)
Definition is_space (c : ascii) : bool :=
  let n := nat_of_ascii c in
  ((9 <=? n)%nat && (n <=? 13)%nat) || (n =? 32)%nat || (n =? 160)%nat.

(** [s.startsWith(p)] *)
Definition startsWith (p s : string) : bool := String.prefix p s.

(** [s.includes(p)] *)
Fixpoint includes (p s : string) : bool :=
  String.prefix p s ||
  match s with
  | EmptyString => false
  | String _ s' => includes p s'
  end.

(** [s.slice(n)] for a non-negative [n] *)
Fixpoint slice (n : nat) (s : string) : string :=
  match n, s with
  | O, _ => s
  | S _, EmptyString => EmptyString
  | S n', String _ s' => slice n' s'
  end.

(** [s.split(sep)] for a one-character separator: the pieces of [s]
    between the occurrences of [sep]; never empty. *)
Fixpoint split (sep : ascii) (s : string) : list string :=
  match s with
  | EmptyString => [EmptyString]
  | String c s' =>
      if Ascii.eqb c sep then EmptyString :: split sep s'
      else match split sep s' with
           | [] => [String c EmptyString]
           | piece :: pieces => String c piece :: pieces
           end
  end.

(** [s.split(sep, limit)]: the split is computed and the array of pieces
    is cut to its first [limit] entries; the rest of the string is NOT
    kept in the last piece. *)
Definition split_limit (sep : ascii) (limit : nat) (s : string) : list string :=
  take limit (split sep s).

(** [pieces.join(sep)] *)
Fixpoint join (sep : ascii) (pieces : list string) : string :=
  match pieces with
  | [] => EmptyString
  | [piece] => piece
  | piece :: rest => piece +:+ String sep (join sep rest)
  end.

Fixpoint trimStart (s : string) : string :=
  match s with
  | EmptyString => EmptyString
  | String c s' => if is_space c then trimStart s' else s
  end.

Fixpoint trimEnd (s : string) : string :=
  match s with
  | EmptyString => EmptyString
  | String c s' =>
      let t := trimEnd s' in
      if is_space c && String.eqb t EmptyString then EmptyString
      else String c t
  end.

(** [s.trim()] *)
Definition trim (s : string) : string := trimEnd (trimStart s).

Fixpoint all_digits (s : string) : bool :=
  match s with
  | EmptyString => true
  | String c s' => is_digit c && all_digits s'
  end.

(** [/^\d+$/.test(s)] *)
Definition test_digits (s : string) : bool :=
  negb (String.eqb s EmptyString) && all_digits s.

(** [/^\d*\.\d+$/.test(s)] *)
Fixpoint test_float (s : string) : bool :=
  match s with
  | EmptyString => false
  | String c s' =>
      if Ascii.eqb c "." then test_digits s'
      else is_digit c && test_float s'
  end.

Definition digit_value (c : ascii) : Z := Z.of_nat (nat_of_ascii c - 48).

(** Value of a string of decimal digits, most significant first. *)
Definition digits_value (s : string) : Z :=
  fold_left (fun acc c => 10 * acc + digit_value c)%Z (list_ascii_of_string s) 0%Z.

(** [parseInt(s, 10)] on a string accepted by [test_digits]: the whole
    number the digits write, which is the number the runtime holds below
    2^53 (beyond, the runtime holds the nearest double). *)
Definition parseInt (s : string) : Q := inject_Z (digits_value s).

(** [parseFloat(s)] on a string accepted by [test_float]: the digits
    around the point, scaled by the number of fractional digits (the
    runtime holds the double nearest to this rational). *)
Definition parseFloat (s : string) : Q :=
  match split "." s with
  | [int_part; frac_part] =>
      Qred (Qmake (digits_value (int_part +:+ frac_part))
                  (Pos.pow 10 (Pos.of_nat (String.length frac_part))))
  | _ => 0%Q
  end.

(** [num / den] rounded to the nearest whole number, a half going to the
    even neighbour. *)
Definition round_half_even (num den : N) : N :=
  let q := (num / den)%N in
  match (2 * (num mod den) ?= den)%N with
  | Lt => q
  | Gt => (q + 1)%N
  | Eq => if N.even q then q else (q + 1)%N
  end.

(** The double nearest to [x], for [x] a whole number or at least 2^52,
    where the doubles are whole numbers: 53 significant bits, a half of the
    last bit going to the even neighbour.  A result of 2^1024 or more stands
    for [Infinity]. *)
Definition toDouble (x : Q) : N :=
  let num := Z.to_N (Qnum x) in
  let den := N.pos (Qden x) in
  let e := N.log2 (num / den) in
  let ulp := if (52 <=? e)%N then (2 ^ (e - 52))%N else 1%N in
  (round_half_even num (den * ulp) * ulp)%N.

(** The whole number [n] is a value of the number type. *)
Definition is_double (n : N) : bool :=
  (toDouble (inject_Z (Z.of_N n)) =? n)%N && (n <? 2 ^ 1024)%N.

(** The whole number with the fewest significant digits that the runtime
    reads back as the double [d] of [n] digits, the one closest to [d]
    when two have as few (step 5 of [Number::toString]); [k] is the number
    of digits tried, 17 always being enough. *)
Fixpoint shortest (d : N) (n k fuel : nat) : N :=
  match fuel with
  | O => d
  | S fuel' =>
      let p := (10 ^ N.of_nat (n - k))%N in
      let lo := (d / p * p)%N in
      let hi := (lo + p)%N in
      match (toDouble (inject_Z (Z.of_N lo)) =? d)%N,
            (toDouble (inject_Z (Z.of_N hi)) =? d)%N with
      | true, true =>
          match (d - lo ?= hi - d)%N with
          | Lt => lo
          | Gt => hi
          | Eq => if N.even (d / p) then lo else hi
          end
      | true, false => lo
      | false, true => hi
      | false, false => shortest d n (S k) fuel'
      end
  end.

(** The digits of a number without the zeros at their end. *)
Fixpoint strip_zeros (digits : string) : string :=
  match digits with
  | EmptyString => EmptyString
  | String c rest =>
      match strip_zeros rest with
      | EmptyString => if Ascii.eqb c "0" then EmptyString else String c EmptyString
      | kept => String c kept
      end
  end.

(** [String(x)] for a double [d] of 10^21 or more: the exponent form of
    [Number::toString], the first digit, a point and the other significant
    digits when there are any, then [e+] and the exponent. *)
Definition numberToString (d : N) : string :=
  if (2 ^ 1024 <=? d)%N then "Infinity"
  else
    let v := shortest d (String.length (pretty d)) 1 17 in
    let exponent := N.of_nat (String.length (pretty v) - 1) in
    match strip_zeros (pretty v) with
    | String c EmptyString => String c EmptyString +:+ "e+" +:+ pretty exponent
    | String c rest => String c EmptyString +:+ "." +:+ rest +:+ "e+" +:+ pretty exponent
    | EmptyString => "0"
    end.

End Js.

(** ** Values of the configuration *)

(** What a property of the configuration object, or of the build request,
    can hold.  [VArr items props] is an array with elements [items] that
    carries the extra named properties [props]; [typeof] answers
    ["object"] for it as it does for [VObj].  [VPlugins] stands for the
    plugin chain [[plugin]], which the script passes through untouched. *)
Inductive JsValue :=
  | VBool (b : bool)
  | VNum (q : Q)
  | VStr (s : string)
  | VArr (items : list string) (props : gmap string JsValue)
  | VObj (fields : gmap string JsValue)
  | VPlugins.

(** ** CLI argument parsing utilities *)

(** Converts kebab-case to camelCase for CLI flags:
    [str.replace(/-([a-z])/g, (_, char) => char.toUpperCase())]. *)
Fixpoint toCamelCase (str : string) : string :=
  match str with
  | EmptyString => EmptyString
  | String c rest =>
      if Ascii.eqb c "-" then
        match rest with
        | String char rest' =>
            if Js.is_lower char then String (Js.toUpperCase char) (toCamelCase rest')
            else String c (toCamelCase rest)
        | EmptyString => String c EmptyString
        end
      else String c (toCamelCase rest)
  end.

(** Parses string values into appropriate JS types (bool, number, array). *)
Definition parseValue (value : string) : JsValue :=
  if String.eqb value "true" then VBool true
  else if String.eqb value "false" then VBool false
  else if Js.test_digits value then VNum (Js.parseInt value)
  else if Js.test_float value then VNum (Js.parseFloat value)
  else if Js.includes "," value then VArr (map Js.trim (Js.split "," value)) ∅
  else VStr value.

(** The configuration object built by the parser. *)
Abbreviation Config := (gmap string JsValue).

(** [typeof existing === "object" && existing !== null], where [existing]
    is the result of a property read ([None] for [undefined]).  Arrays are
    objects for [typeof]. *)
Definition is_object (existing : option JsValue) : bool :=
  match existing with
  | Some (VObj _) | Some (VArr _ _) | Some VPlugins => true
  | _ => false
  end.

(** [obj[key] = v] on the object [obj]: a nested map gets the entry, an
    array gets the named property ([key] is taken not to be an index or
    [length], which an array treats in its own way). *)
Definition set_property (obj : JsValue) (key : string) (v : JsValue) : JsValue :=
  match obj with
  | VObj fields => VObj (<[key := v]> fields)
  | VArr items props => VArr items (<[key := v]> props)
  | other => other
  end.

(** [pieces[i]] of a destructuring whose target is known to be there. *)
Definition item (i : nat) (pieces : list string) : string :=
  default EmptyString (pieces !! i).

(** Lines 102-114: the normalized [key] receives [value]; a dotted key
    stores it under the parent's nested object. *)
Definition assign (config : Config) (key value : string) : Config :=
  let key := toCamelCase key in
  if Js.includes "." key then
    let pieces := Js.split "." key in
    let parentKey := item 0 pieces in
    let childKey := item 1 pieces in
    if negb (String.eqb parentKey EmptyString) && negb (String.eqb childKey EmptyString) then
      let existing := config !! parentKey in
      let parent := if is_object existing then default (VObj ∅) existing else VObj ∅ in
      <[parentKey := set_property parent childKey (parseValue value)]> config
    else config
  else <[key := parseValue value]> config.

(** [i === args.length - 1 || args[i + 1]?.startsWith("--")], where
    [rest] holds the tokens after [args[i]]. *)
Definition last_or_before_flag (rest : list string) : bool :=
  match rest with
  | [] => true
  | next :: _ => Js.startsWith "--" next
  end.

(** The [for] loop of [parseArgs], from index [i] on: [args] holds
    [args[i]], [args[i+1]], ... and [config] is the object built so far. *)
Fixpoint parseArgs_loop (config : Config) (args : list string) : Config :=
  match args with
  | [] => config
  | arg :: rest =>
      if negb (Js.startsWith "--" arg) then parseArgs_loop config rest
      else if Js.startsWith "--no-" arg then
        parseArgs_loop (<[toCamelCase (Js.slice 5 arg) := VBool false]> config) rest
      else if negb (Js.includes "=" arg) && last_or_before_flag rest then
        parseArgs_loop (<[toCamelCase (Js.slice 2 arg) := VBool true]> config) rest
      else if Js.includes "=" arg then
        let pieces := Js.split_limit "=" 2 (Js.slice 2 arg) in
        parseArgs_loop (assign config (item 0 pieces) (item 1 pieces)) rest
      else
        match rest with
        | value :: rest' => parseArgs_loop (assign config (Js.slice 2 arg) value) rest'
        | [] => assign config (Js.slice 2 arg) EmptyString
        end
  end.

(** Parses CLI arguments into a config object for Bun.build.  [args] is
    [process.argv.slice(2)]. *)
Definition parseArgs (args : list string) : Config := parseArgs_loop ∅ args.

(** ** Size formatting *)

Definition units : list string := ["B"; "KB"; "MB"; "GB"].

(** [x.toFixed(2)] for [0 <= x].  From [10^21] on the result is [String(x)],
    which is in exponent form there.  Below, with [n] the integer for which
    [n / 100 - x] is closest to zero (the larger one on a tie), it is the
    decimal digits of [n] with a point before the last two. *)
Definition toFixed2 (x : Q) : string :=
  if Qle_bool (inject_Z (10 ^ 21)) x then Js.numberToString (Js.toDouble x)
  else
    let n := Z.to_N (Qfloor (x * 100 + (1 # 2))%Q) in
    pretty (n / 100)%N +:+ "." +:+ pretty ((n / 10) mod 10)%N +:+ pretty (n mod 10)%N.

(** The [while] loop of [formatFileSize].  [room] is
    [units.length - 1 - unitIndex], the number of larger units left, so
    that [unitIndex < units.length - 1] reads [room <> 0]. *)
Fixpoint scale (room : nat) (size : Q) (unitIndex : nat) : Q * nat :=
  match room with
  | O => (size, unitIndex)
  | S room' =>
      if Qle_bool 1024%Q size then scale room' (size / 1024)%Q (S unitIndex)
      else (size, unitIndex)
  end.

(** Formats bytes into human-readable size (B, KB, MB, GB). *)
Definition formatFileSize (bytes : N) : string :=
  let '(size, unitIndex) := scale (length units - 1) (inject_Z (Z.of_N bytes)) 0 in
  toFixed2 size +:+ " " +:+ item unitIndex units.

(** ** The build program *)

(** Tagged errors of [src/lib/errors.ts] that the build script raises, with
    the cause payloads the script attaches, and the typed failure of the
    file system service, which [fs.exists] can raise and the script does not
    wrap.  [Err] is the type of the underlying errors ([unknown] in the
    source). *)
Record CleanCause (Err : Type) := {
  clean_directory : string;
  clean_originalError : Err
}.

Record BuildCause (Err : Type) := {
  build_originalError : Err;
  build_entrypoints : list string;
  build_outdir : string;
  build_config : Config
}.

Arguments clean_directory {Err} _.
Arguments clean_originalError {Err} _.
Arguments build_originalError {Err} _.
Arguments build_entrypoints {Err} _.
Arguments build_outdir {Err} _.
Arguments build_config {Err} _.

Inductive AppError (Err : Type) :=
  | CleanError (message : string) (cause : CleanCause Err)
  | BuildError (message : string) (cause : BuildCause Err)
  | PlatformError (error : Err).

Arguments CleanError {Err} _ _.
Arguments BuildError {Err} _ _.
Arguments PlatformError {Err} _.

(** An artifact of [result.outputs]. *)
Record Artifact := {
  artifact_path : string;
  artifact_kind : string;
  artifact_size : N
}.

(** The value [Bun.build] resolves to; the script reads [outputs] only. *)
Record BuildOutput := { outputs : list Artifact }.

(** A row of the table the reporter prints. *)
Record Row := { row_File : string; row_Type : string; row_Size : string }.

(** Lines written through [Console.log] and [Console.error]; the elapsed
    time of the completion line is a reading of the clock and is not kept. *)
Inductive Message :=
  | MsgStarting
  | MsgCleaning (outdir : string)
  | MsgFound (count : nat)
  | MsgBuildOutput
  | MsgCompleted
  | MsgCleanFailed (message : string)
  | MsgBuildFailed (message : string).

(** What a run does to the world, in order. *)
Inductive Event :=
  | ConsoleLog (message : Message)
  | ConsoleError (message : Message)
  | ConsoleTable (rows : list Row)
  | FsExists (path : string)
  | FsRemove (path : string)
  | GlobScan
  | BunBuild (request : Config).

(** An effect with a typed failure channel: the events performed and then
    either the failure or the result. *)
Definition Effect (E A : Type) : Type := list Event * (E + A).

Definition succeed {E A} (a : A) : Effect E A := ([], inr a).

Definition perform {E A} (event : Event) (outcome : E + A) : Effect E A :=
  ([event], outcome).

(** [yield*]: run [m], stop at its failure, else continue with [k]. *)
Definition andThen {E A B} (m : Effect E A) (k : A -> Effect E B) : Effect E B :=
  match m with
  | (events, inl e) => (events, inl e)
  | (events, inr a) => let '(events', r) := k a in (events ++ events', r)
  end.

(** [Effect.mapError] *)
Definition mapError {E E' A} (f : E -> E') (m : Effect E A) : Effect E' A :=
  match m with
  | (events, inl e) => (events, inl (f e))
  | (events, inr a) => (events, inr a)
  end.

(** [Effect.catchTag]: a failure that [handler] takes is replaced by the
    effect it gives. *)
Definition catchTag {E A} (handler : E -> option (Effect E A)) (m : Effect E A) : Effect E A :=
  match m with
  | (events, inl e) =>
      match handler e with
      | Some (events', r) => (events ++ events', r)
      | None => m
      end
  | _ => m
  end.

#[global] Instance effect_ret {E} : MRet (Effect E) := fun A a => succeed a.
#[global] Instance effect_bind {E} : MBind (Effect E) := fun A B k m => andThen m k.

Section BuildProgram.

Context {Err : Type}.

(** The collaborators of the script: the process, node's [path], the file
    system service, the glob scan of [src] and the bundler. *)
Record Env := {
  cwd : string;
  path_join : string -> string -> string;
  path_resolve : string -> string -> string;
  path_relative : string -> string -> string;
  fs_exists : string -> Err + bool;
  fs_remove : string -> Err + unit;
  glob_scan : list string;
  bun_build : Config -> Err + BuildOutput
}.

Variable env : Env.

Definition log (message : Message) : Effect (AppError Err) unit :=
  perform (ConsoleLog message) (inr tt).

(** Line 144. *)
Definition resolveOutdir (cliConfig : Config) : string :=
  match cliConfig !! "outdir" with
  | Some (VStr outdir) => outdir
  | _ => path_join env (cwd env) "dist"
  end.

(** Lines 146-156: clean previous build. *)
Definition cleanPrevious (outdir : string) : Effect (AppError Err) unit :=
  exists_ ← mapError PlatformError (perform (FsExists outdir) (fs_exists env outdir));
  if (exists_ : bool) then
    log (MsgCleaning outdir);;
    mapError
      (fun error => CleanError ("Failed to clean directory: " +:+ outdir)
                      {| clean_directory := outdir; clean_originalError := error |})
      (perform (FsRemove outdir) (fs_remove env outdir))
  else mret tt.

(** Lines 161-163: find entrypoints. *)
Definition findEntrypoints : list string :=
  List.filter (fun dir => negb (Js.includes "node_modules" dir))
              (map (fun a => path_resolve env "src" a) (glob_scan env)).

(** [JSON.stringify("production")] *)
Definition production : string := String "034" ("production" +:+ String "034" EmptyString).

(** Lines 170-178: the properties written out in the object handed to
    [Bun.build]. *)
Definition defaultRequest (entrypoints : list string) (outdir : string) : Config :=
  <["entrypoints" := VArr entrypoints ∅]>
  (<["outdir" := VStr outdir]>
  (<["plugins" := VPlugins]>
  (<["minify" := VBool true]>
  (<["target" := VStr "browser"]>
  (<["sourcemap" := VStr "linked"]>
  (<["define" := VObj {[ "process.env.NODE_ENV" := VStr production ]}]> ∅)))))).

(** Lines 169-180: the object handed to [Bun.build]; the properties of
    [cliConfig] are spread last, over the ones written out. *)
Definition buildRequest (entrypoints : list string) (outdir : string)
    (cliConfig : Config) : Config :=
  cliConfig ∪ defaultRequest entrypoints outdir.

(** Lines 195-199. *)
Definition outputTable (result : BuildOutput) : list Row :=
  map (fun output =>
         {| row_File := path_relative env (cwd env) (artifact_path output);
            row_Type := artifact_kind output;
            row_Size := formatFileSize (artifact_size output) |})
      (outputs result).

(** Main build program: cleans the output directory, finds entrypoints,
    runs [Bun.build], and reports results.  [args] is
    [process.argv.slice(2)]. *)
Definition buildProgram (args : list string) : Effect (AppError Err) BuildOutput :=
  log MsgStarting;;
  let cliConfig := parseArgs args in
  let outdir := resolveOutdir cliConfig in
  cleanPrevious outdir;;
  entrypoints ← perform GlobScan (inr findEntrypoints);
  log (MsgFound (length entrypoints));;
  result ←
    mapError
      (fun error => BuildError "Build failed"
                      {| build_originalError := error;
                         build_entrypoints := entrypoints;
                         build_outdir := outdir;
                         build_config := cliConfig |})
      (let request := buildRequest entrypoints outdir cliConfig in
       perform (BunBuild request) (bun_build env request));
  log MsgBuildOutput;;
  perform (ConsoleTable (outputTable result)) (inr tt);;
  log MsgCompleted;;
  mret result.

(** Lines 213-228: the program with its two handlers, which print the
    failure and fail again with it. *)
Definition runMain (args : list string) : Effect (AppError Err) BuildOutput :=
  catchTag
    (fun error => match error with
                  | BuildError message _ =>
                      Some (perform (ConsoleError (MsgBuildFailed message)) (inl error))
                  | _ => None
                  end)
    (catchTag
       (fun error => match error with
                     | CleanError message _ =>
                         Some (perform (ConsoleError (MsgCleanFailed message)) (inl error))
                     | _ => None
                     end)
       (buildProgram args)).

End BuildProgram.

Arguments Env : clear implicits.

(** ** Vocabulary of the statements *)

(** [[A-Z]] *)
Definition is_upper (c : ascii) : bool :=
  (65 <=? nat_of_ascii c)%nat && (nat_of_ascii c <=? 90)%nat.

Fixpoint no_upper (s : string) : bool :=
  match s with
  | EmptyString => true
  | String c s' => negb (is_upper c) && no_upper s'
  end.

(** The token [arg] is a flag that names the top-level key [key] itself:
    [--no-<key>], [--<key>], [--<key>=...] (or [--<key>] before its value),
    up to the camel-case normalization. *)
Definition names_key (key arg : string) : bool :=
  Js.startsWith "--" arg &&
  if Js.startsWith "--no-" arg then String.eqb (toCamelCase (Js.slice 5 arg)) key
  else String.eqb (toCamelCase (item 0 (Js.split "=" (Js.slice 2 arg)))) key.

(** The token [arg] is a [--splitting] token: the flag alone, with a value
    after [=], or with a child key after a dot. *)
Definition splitting_token (arg : string) : bool :=
  String.eqb arg "--splitting"
  || Js.startsWith "--splitting=" arg
  || Js.startsWith "--splitting." arg.

(** What a flag token [arg] can do to the configuration, whatever follows
    it: the four assignments of the loop body. *)
Inductive flag_write (arg : string) (config : Config) : Config -> Prop :=
  | write_negated :
      Js.startsWith "--no-" arg = true ->
      flag_write arg config (<[toCamelCase (Js.slice 5 arg) := VBool false]> config)
  | write_standalone :
      Js.startsWith "--no-" arg = false -> Js.includes "=" arg = false ->
      flag_write arg config (<[toCamelCase (Js.slice 2 arg) := VBool true]> config)
  | write_key_equals :
      Js.startsWith "--no-" arg = false -> Js.includes "=" arg = true ->
      flag_write arg config
        (assign config (item 0 (Js.split_limit "=" 2 (Js.slice 2 arg)))
                       (item 1 (Js.split_limit "=" 2 (Js.slice 2 arg))))
  | write_key_value value :
      Js.startsWith "--no-" arg = false -> Js.includes "=" arg = false ->
      flag_write arg config (assign config (Js.slice 2 arg) value).

(** [later] has every child key of [earlier]. *)
Definition extends (earlier later : gmap string JsValue) : Prop :=
  forall childKey, is_Some (earlier !! childKey) -> is_Some (later !! childKey).

(** The events of a run and the way it ends. *)
Definition trace {E A} (run : Effect E A) : list Event := run.1.
Definition exit {E A} (run : Effect E A) : E + A := run.2.

(** A sample world for the examples: a project in [/work] with two pages
    and a page of a dependency; whether the output directory exists, what
    its removal answers and what the bundler answers are left open. *)
Definition sampleEnv (exists_ : bool) (removal : string + unit)
    (build : string + BuildOutput) : Env string :=
  {| cwd := "/work";
     path_join := fun a b => a +:+ "/" +:+ b;
     path_resolve := fun root a => "/work/" +:+ root +:+ "/" +:+ a;
     path_relative := fun from to => Js.slice (S (String.length from)) to;
     fs_exists := fun _ => inr exists_;
     fs_remove := fun _ => removal;
     glob_scan := ["index.html"; "node_modules/pkg/demo.html"; "pages/about.html"];
     bun_build := fun _ => build |}.

(** A hyphen followed by a letter of [[a-z]] somewhere in [s]: a place
    where the normalization of keys has something to do. *)
Fixpoint has_kebab (s : string) : bool :=
  match s with
  | EmptyString => false
  | String c rest =>
      (Ascii.eqb c "-" && match rest with
                          | String d _ => Js.is_lower d
                          | EmptyString => false
                          end)
      || has_kebab rest
  end.

(** The values [parseValue] gives: a boolean, a number, a string or a
    plain list. *)
Definition leaf (v : JsValue) : Prop :=
  match v with
  | VBool _ | VNum _ | VStr _ => True
  | VArr _ props => props = ∅
  | VObj _ | VPlugins => False
  end.

(** What the loop body assigns for the flag token [arg] when [rest] is what
    follows it: [false] for [--no-key]; after [--key=value] the coerced text
    between the first [=] and the second; the coerced next token for
    [--key value]; [true] for a flag that stands alone, at the end of the
    vector or before another flag.  These are the values of the four
    assignments of the loop body. *)
Definition assigned_value (arg : string) (rest : list string) : JsValue :=
  if Js.startsWith "--no-" arg then VBool false
  else if Js.includes "=" arg
       then parseValue (item 1 (Js.split_limit "=" 2 (Js.slice 2 arg)))
       else match rest with
            | value :: _ =>
                if Js.startsWith "--" value then VBool true else parseValue value
            | [] => VBool true
            end.

(** The tokens the loop still has to read after the turn of the flag token
    [arg]: all of [rest], or [rest] without its first token when the turn
    took it as the value of the flag ([i++] at line 100). *)
Definition after_turn (arg : string) (rest : list string) : list string :=
  if Js.startsWith "--no-" arg || Js.includes "=" arg then rest
  else match rest with
       | value :: rest' => if Js.startsWith "--" value then rest else rest'
       | [] => []
       end.

(** A token that stays within what the configuration is modelled with: it
    does not spell [__proto__], the accessor of a JavaScript object, nor
    [.length], the one property of a list whose assignment can throw. *)
Definition plain_token (arg : string) : bool :=
  negb (Js.includes "__proto__" arg) && negb (Js.includes ".length" arg).

(** A value of the configuration with nothing nested under its
    properties. *)
Definition shallow (v : JsValue) : Prop :=
  match v with
  | VBool _ | VNum _ | VStr _ => True
  | VArr _ props => map_Forall (fun _ child => leaf child) props
  | VObj fields => map_Forall (fun _ child => leaf child) fields
  | VPlugins => False
  end.

(** The events that remove a directory, and the ones that call the
    bundler. *)
Definition is_removal (event : Event) : bool :=
  match event with FsRemove _ => true | _ => false end.

Definition is_build_call (event : Event) : bool :=
  match event with BunBuild _ => true | _ => false end.

Definition is_error_line (event : Event) : bool :=
  match event with ConsoleError _ => true | _ => false end.

(** A sample world whose working directory lies under [node_modules]. *)
Definition vendoredEnv : Env unit :=
  {| cwd := "/home/me/node_modules/site";
     path_join := fun a b => a +:+ "/" +:+ b;
     path_resolve := fun root a => "/home/me/node_modules/site" +:+ "/" +:+ root +:+ "/" +:+ a;
     path_relative := fun from to => to;
     fs_exists := fun _ => inr false; fs_remove := fun _ => inr tt;
     glob_scan := ["index.html"; "pages/about.html"];
     bun_build := fun _ => inl tt |}.

(** A sample world whose file system cannot be read. *)
Definition unreadableEnv : Env string :=
  {| cwd := "/work"; path_join := fun a b => a +:+ "/" +:+ b;
     path_resolve := fun root a => a; path_relative := fun from to => to;
     fs_exists := fun _ => inl "EIO"; fs_remove := fun _ => inr tt;
     glob_scan := []; bun_build := fun _ => inl "unused" |}.

(** * The server [src/index.ts]: the handlers of the API routes *)

Module Server.

(** [ValidationError] of [src/lib/errors.ts], with the cause the handler
    attaches. *)
Record ValidationCause := { cause_endpoint : string; cause_value : string }.

Record ValidationError := {
  validation_message : string;
  validation_cause : ValidationCause
}.

(** A response made by [Response.json]: the status and the object that
    is serialized, as its fields in the order they are written. *)
Record Response := {
  response_status : nat;
  response_body : list (string * string)
}.

(** Returns a greeting with the HTTP method used. *)
Definition getHello (method : string) : list (string * string) :=
  [("message", "Hello, world!"); ("method", method)].

(** Returns a personalized greeting or ValidationError if name is empty. *)
Definition getHelloByName (name : string) : ValidationError + list (string * string) :=
  if String.eqb name EmptyString || String.eqb (Js.trim name) EmptyString then
    inl {| validation_message := "Name parameter is required";
           validation_cause := {| cause_endpoint := "/api/hello/:name";
                                  cause_value := name |} |}
  else inr [("message", "Hello, " +:+ name +:+ "!")].

Definition handleHelloGet : Response :=
  {| response_status := 200; response_body := getHello "GET" |}.

Definition handleHelloPut : Response :=
  {| response_status := 200; response_body := getHello "PUT" |}.

(** Handles [/api/hello/:name] with error recovery: the validation error
    is caught and answered with status 400. *)
Definition handleHelloByName (name : string) : Response :=
  match getHelloByName name with
  | inr data => {| response_status := 200; response_body := data |}
  | inl error =>
      {| response_status := 400;
         response_body := [("error", validation_message error)] |}
  end.

End Server.

(** * The page [src/APITester.tsx]: the call of an endpoint *)

Module Page.

(** What [FormData.get] gives for a field: a string, a file, or [null]. *)
Inductive FormValue :=
  | FormString (s : string)
  | FormFile
  | FormMissing.

(** [Schema.decodeUnknownEither(FormDataSchema)]: the endpoint is a string
    with one character at least and the method is ["GET"] or ["PUT"]. *)
Definition decodeForm (endpoint method : FormValue) : option (string * string) :=
  match endpoint, method with
  | FormString e, FormString m =>
      if negb (String.eqb e EmptyString) && (String.eqb m "GET" || String.eqb m "PUT")
      then Some (e, m) else None
  | _, _ => None
  end.

Section Fetching.

(** The underlying errors, the parsed JSON, the validated data and the
    issue of a failed validation are left open. *)
Context {Err Json Data Issue : Type}.

(** The response of [fetch]; reading its body as JSON can fail. *)
Record HttpResponse := {
  ok : bool;
  status : N;
  statusText : string;
  json : Err + Json
}.

(** The browser and the schema library: [new URL(endpoint, location.href)]
    ([None] when it throws), [fetch], [Schema.decodeUnknown(ApiResponse)],
    [String(error)] and [JSON.stringify(data, null, 2)]. *)
Record Browser := {
  make_url : string -> option string;
  fetch : string -> string -> Err + HttpResponse;
  decode : Json -> Issue + Data;
  show_issue : Issue -> string;
  stringify : Data -> string
}.

(** The causes attached to the errors. *)
Inductive Cause :=
  | CauseOriginal (originalError : Err) (endpoint method : string)
  | CauseRequest (endpoint method url : string)
  | CauseSchema (schemaError : string) (endpoint method : string) (receivedData : Json).

(** The tagged errors of the fetcher. *)
Inductive FetchError :=
  | NetworkError (message : string) (cause : Cause)
  | HttpError (status : N) (statusText : string) (cause : Cause)
  | ParseError (message : string) (cause : Cause).

(** What the page does, in order. *)
Inductive PageEvent :=
  | Fetch (url method : string)
  | ReadJson
  | Validate
  | ShowResponse (text : string).

(** The end of an effect: a value, a typed failure, or a defect (an
    exception thrown inside the generator). *)
Inductive Outcome (A : Type) :=
  | Succeeded (a : A)
  | Failed (error : FetchError)
  | Died.

Arguments Succeeded {A} _.
Arguments Failed {A} _.
Arguments Died {A}.

Variable browser : Browser.

(** Effect-based API fetcher with typed error channel. *)
Definition fetchApi (endpoint method : string) : list PageEvent * Outcome Data :=
  match make_url browser endpoint with
  | None => ([], Died)
  | Some url =>
      match fetch browser url method with
      | inl error =>
          ([Fetch url method],
           Failed (NetworkError ("Failed to fetch " +:+ method +:+ " " +:+ endpoint)
                                (CauseOriginal error endpoint method)))
      | inr response =>
          if negb (ok response) then
            ([Fetch url method],
             Failed (HttpError (status response) (statusText response)
                               (CauseRequest endpoint method url)))
          else
            match json response with
            | inl error =>
                ([Fetch url method; ReadJson],
                 Failed (ParseError ("Failed to parse JSON response from " +:+ endpoint)
                                    (CauseOriginal error endpoint method)))
            | inr received =>
                match decode browser received with
                | inl issue =>
                    ([Fetch url method; ReadJson; Validate],
                     Failed (ParseError ("Response validation failed for " +:+ endpoint)
                                        (CauseSchema (show_issue browser issue)
                                                     endpoint method received)))
                | inr data => ([Fetch url method; ReadJson; Validate], Succeeded data)
                end
            end
      end
  end.

(** Lines 117-123: the data as text, and each error caught by its tag and
    turned into a line of text. *)
Definition describe (outcome : Outcome Data) : option string :=
  match outcome with
  | Succeeded data => Some (stringify browser data)
  | Failed (NetworkError message _) => Some ("Network Error: " +:+ message)
  | Failed (HttpError status statusText _) =>
      Some ("HTTP " +:+ pretty status +:+ ": " +:+ statusText)
  | Failed (ParseError message _) => Some ("Parse Error: " +:+ message)
  | Died => None
  end.

(** [responseInputRef.current.value = text], when the text area is
    there. *)
Definition show (mounted : bool) (text : string) : list PageEvent :=
  if mounted then [ShowResponse text] else [].

(** The submit handler: the events, and whether its promise is fulfilled
    ([true]) or rejected. *)
Definition testEndpoint (mounted : bool) (endpoint method : FormValue)
    : list PageEvent * bool :=
  match decodeForm endpoint method with
  | None => (show mounted "Validation Error: Invalid form data", true)
  | Some (endpoint, method) =>
      let '(events, outcome) := fetchApi endpoint method in
      match describe outcome with
      | Some result => (events ++ show mounted result, true)
      | None => (events, false)
      end
  end.

End Fetching.

Arguments Browser : clear implicits.
Arguments HttpResponse : clear implicits.
Arguments Succeeded {Err Json A} _.
Arguments Failed {Err Json A} _.
Arguments Died {Err Json A}.

End Page.

(** A sample browser for the examples: the page is served from
    [localhost:3000], every body is valid, and the answer to the request is
    left open. *)
Definition sampleBrowser (answer : string + Page.HttpResponse string string)
    : Page.Browser string string string string :=
  {| Page.make_url := fun endpoint => Some ("http://localhost:3000" +:+ endpoint);
     Page.fetch := fun _ _ => answer;
     Page.decode := fun received => inr received;
     Page.show_issue := fun issue => issue;
     Page.stringify := fun data => data |}.

(** * Properties *)

(** ** Strings *)

Module JsFacts.
Import Js.

Lemma prefix_char c s :
  String.prefix (String c EmptyString) s = true ->
  exists s', s = String c s'.
Proof.
  destruct s as [|a s']; simpl; [discriminate|].
  destruct (ascii_dec c a) as [->|]; [eauto|discriminate].
Qed.

Lemma includes_char_cons sep c s :
  includes (String sep EmptyString) (String c s)
  = Ascii.eqb c sep || includes (String sep EmptyString) s.
Proof.
  cbn [includes String.prefix].
  destruct (ascii_dec sep c) as [->|Hne].
  - rewrite Ascii.eqb_refl. by destruct s.
  - destruct (Ascii.eqb_spec c sep) as [->|]; [done|]. reflexivity.
Qed.

Lemma includes_char_nil sep : includes (String sep EmptyString) EmptyString = false.
Proof. reflexivity. Qed.

Lemma split_nonempty sep s : split sep s <> [].
Proof.
  destruct s as [|c s]; cbn [split]; [done|].
  destruct (Ascii.eqb c sep); [done|]. by destruct (split sep s).
Qed.

Lemma join_cons sep a b rest :
  join sep (a :: b :: rest) = a +:+ String sep (join sep (b :: rest)).
Proof. reflexivity. Qed.

(** The pieces of a split, joined again, give the string back. *)
Lemma join_split sep s : join sep (split sep s) = s.
Proof.
  induction s as [|c s IH]; [reflexivity|].
  cbn [split]. pose proof (split_nonempty sep s) as Hne.
  destruct (split sep s) as [|piece pieces] eqn:E; [done|].
  destruct (Ascii.eqb_spec c sep) as [->|_].
  - by rewrite join_cons, IH.
  - destruct pieces as [|b rest]; [cbn in *; congruence|].
    rewrite join_cons in *. by rewrite <- IH.
Qed.

(** No piece of a split holds the separator. *)
Lemma split_pieces sep s :
  Forall (fun piece => includes (String sep EmptyString) piece = false) (split sep s).
Proof.
  induction s as [|c s IH]; cbn [split].
  - by repeat constructor.
  - destruct (Ascii.eqb_spec c sep) as [->|Hne].
    + constructor; [reflexivity|done].
    + destruct (split sep s) as [|piece pieces]; [repeat constructor|].
      * rewrite includes_char_cons, includes_char_nil.
        by destruct (Ascii.eqb_spec c sep).
      * inversion IH; subst. constructor; [|done].
        rewrite includes_char_cons. by destruct (Ascii.eqb_spec c sep).
Qed.

(** A string that holds the separator splits into two pieces at least. *)
Lemma split_includes sep s :
  includes (String sep EmptyString) s = true -> 2 <= length (split sep s).
Proof.
  induction s as [|c s IH]; [discriminate|].
  rewrite includes_char_cons. cbn [split].
  destruct (Ascii.eqb_spec c sep) as [->|Hne]; cbn [orb].
  - intros _. destruct s; cbn; [lia|]. destruct (Ascii.eqb _ _); cbn; [lia|].
    destruct (split sep s); cbn; lia.
  - intros H. specialize (IH H). destruct (split sep s); cbn in *; lia.
Qed.

Lemma all_digits_includes sep s :
  is_digit sep = false -> all_digits s = true ->
  includes (String sep EmptyString) s = false.
Proof.
  intros Hsep. induction s as [|c s IH]; [done|].
  cbn [all_digits]. rewrite includes_char_cons. intros [Hc Hs]%andb_prop.
  rewrite (IH Hs). destruct (Ascii.eqb_spec c sep) as [->|]; [congruence|done].
Qed.

Lemma test_digits_includes sep s :
  is_digit sep = false -> test_digits s = true ->
  includes (String sep EmptyString) s = false.
Proof.
  intros Hsep [_ H]%andb_prop. by apply all_digits_includes.
Qed.

Lemma test_float_includes sep s :
  is_digit sep = false -> sep <> "."%char -> test_float s = true ->
  includes (String sep EmptyString) s = false.
Proof.
  intros Hsep Hdot. induction s as [|c s IH]; [done|].
  cbn [test_float]. rewrite includes_char_cons.
  destruct (Ascii.eqb_spec c ".") as [->|Hc].
  - intros H. rewrite (test_digits_includes _ _ Hsep H).
    by destruct (Ascii.eqb_spec "."%char sep).
  - intros [Hd Hs]%andb_prop. rewrite (IH Hs).
    destruct (Ascii.eqb_spec c sep) as [->|]; [congruence|done].
Qed.

Lemma trimEnd_idem s : trimEnd (trimEnd s) = trimEnd s.
Proof.
  induction s as [|c s IH]; [done|]. cbn [trimEnd].
  destruct (is_space c && String.eqb (trimEnd s) EmptyString) eqn:E; [done|].
  cbn [trimEnd]. rewrite IH, E. done.
Qed.

Lemma trimStart_trimEnd s :
  trimStart s = s -> trimStart (trimEnd s) = trimEnd s.
Proof.
  destruct s as [|c s]; [done|]. cbn [trimStart trimEnd].
  destruct (is_space c) eqn:Hc.
  - intros H. exfalso. clear Hc.
    assert (Hlen : forall t, String.length (trimStart t) <= String.length t).
    { induction t as [|a t IHt]; cbn; [lia|]. destruct (is_space a); cbn; lia. }
    specialize (Hlen s). rewrite H in Hlen. cbn in Hlen. lia.
  - intros _. cbn [andb trimStart]. by rewrite Hc.
Qed.

Lemma trimStart_idem s : trimStart (trimStart s) = trimStart s.
Proof.
  induction s as [|c s IH]; [done|]. cbn [trimStart].
  destruct (is_space c) eqn:Hc; [done|]. cbn [trimStart]. by rewrite Hc.
Qed.

(** A trimmed string has no white space left at either end. *)
Lemma trim_trimmed s : trimStart (trim s) = trim s /\ trimEnd (trim s) = trim s.
Proof.
  unfold trim. split; [|apply trimEnd_idem].
  apply trimStart_trimEnd, trimStart_idem.
Qed.

Lemma append_cons c a b : String c a +:+ b = String c (a +:+ b).
Proof. reflexivity. Qed.

Lemma append_nil a : EmptyString +:+ a = a.
Proof. reflexivity. Qed.

Lemma startsWith_slice p s :
  startsWith p s = true -> s = p +:+ slice (String.length p) s.
Proof.
  unfold startsWith. revert s. induction p as [|a p IH]; intros s; [done|].
  destruct s as [|c s]; cbn; [discriminate|].
  destruct (ascii_dec a c) as [->|]; [|discriminate].
  intros H. rewrite append_cons. f_equal. by apply IH.
Qed.

Lemma startsWith_app p s : startsWith p (p +:+ s) = true.
Proof.
  unfold startsWith. induction p as [|a p IH].
  - change (EmptyString +:+ s) with s. by destruct s.
  - rewrite append_cons. cbn [String.prefix]. by destruct (ascii_dec a a).
Qed.

Lemma includes_slice sep n s :
  includes (String sep EmptyString) s = false ->
  includes (String sep EmptyString) (slice n s) = false.
Proof.
  revert s. induction n as [|n IH]; intros s; [done|].
  destruct s as [|c s]; [done|]. rewrite includes_char_cons.
  intros [_ H]%orb_false_elim. by apply IH.
Qed.

Lemma split_no_sep sep s :
  includes (String sep EmptyString) s = false -> split sep s = [s].
Proof.
  induction s as [|c s IH]; [done|]. rewrite includes_char_cons.
  intros [Hc Hs]%orb_false_elim. cbn [split]. by rewrite Hc, (IH Hs).
Qed.

Lemma split_sep sep s :
  includes (String sep EmptyString) s = true ->
  exists r, s = item 0 (split sep s) +:+ String sep r.
Proof.
  induction s as [|c s IH]; [discriminate|]. rewrite includes_char_cons.
  cbn [split]. destruct (Ascii.eqb_spec c sep) as [->|Hne]; cbn [orb].
  - intros _. by exists s.
  - intros H. destruct (IH H) as [r Hr].
    pose proof (split_nonempty sep s) as Hnil.
    destruct (split sep s) as [|piece pieces]; [done|].
    exists r. change (String c s = String c piece +:+ String sep r).
    rewrite append_cons. f_equal. exact Hr.
Qed.

Lemma item_0_split_limit sep s : item 0 (split_limit sep 2 s) = item 0 (split sep s).
Proof. unfold split_limit. by destruct (split sep s). Qed.

Lemma app_empty_r s : s +:+ EmptyString = s.
Proof. induction s as [|c s IH]; [done|]. by rewrite append_cons, IH. Qed.

Lemma app_assoc' a b c : (a +:+ b) +:+ c = a +:+ (b +:+ c).
Proof. induction a as [|x a IH]; [done|]. by rewrite !append_cons, IH. Qed.

End JsFacts.

(** Pushes the appends of a goal and its hypotheses through the
    constructors of the strings. *)
Ltac push_append :=
  repeat (rewrite ?JsFacts.append_cons, ?JsFacts.append_nil in * ).

(** ** Value coercion *)

(** A coerced value is a boolean, a number, a string or a plain list. *)
Lemma parseValue_leaf (value : string) : leaf (parseValue value).
Proof. unfold parseValue. by repeat case_match. Qed.

Lemma parseValue_comma (value : string) :
  Js.includes "," value = true ->
  parseValue value = VArr (map Js.trim (Js.split "," value)) ∅.
Proof.
  intros H. unfold parseValue.
  destruct (String.eqb_spec value "true") as [->|_]; [discriminate|].
  destruct (String.eqb_spec value "false") as [->|_]; [discriminate|].
  destruct (Js.test_digits value) eqn:Hd.
  { by rewrite (JsFacts.test_digits_includes "," value) in H. }
  destruct (Js.test_float value) eqn:Hf.
  { by rewrite (JsFacts.test_float_includes "," value) in H. }
  by rewrite H.
Qed.

(** C7.  A raw value that holds a comma is coerced to the array of its
    comma-separated pieces, each with the surrounding white space trimmed.
    The pieces are the substrings between the commas (joined with commas
    they give the value back, and none holds a comma); the elements of the
    array are strings, whatever they look like: none is turned into a
    boolean or a number. *)
Theorem parseValue_comma_list (value : string) :
  Js.includes "," value = true ->
  parseValue value = VArr (map Js.trim (Js.split "," value)) ∅
  /\ Js.join "," (Js.split "," value) = value
  /\ Forall (fun piece => Js.includes "," piece = false) (Js.split "," value)
  /\ Forall (fun element => Js.trimStart element = element /\ Js.trimEnd element = element)
            (map Js.trim (Js.split "," value)).
Proof.
  intros H. split; [by apply parseValue_comma|].
  split; [apply JsFacts.join_split|].
  split; [apply JsFacts.split_pieces|].
  apply Forall_map, Forall_forall. intros piece _. apply JsFacts.trim_trimmed.
Qed.

Lemma parseValue_comma_list_witness :
  parseValue "1, true ,2.5,x" = VArr ["1"; "true"; "2.5"; "x"] ∅.
Proof.
  destruct (parseValue_comma_list "1, true ,2.5,x" eq_refl) as [H _].
  exact H.
Defined.

(** ** The argument parser *)

Section LoopEquations.

Variables (config : Config) (arg : string) (rest : list string).

Lemma parseArgs_loop_skip :
  Js.startsWith "--" arg = false ->
  parseArgs_loop config (arg :: rest) = parseArgs_loop config rest.
Proof. intros H. cbn [parseArgs_loop]. by rewrite H. Qed.

Lemma parseArgs_loop_negated :
  Js.startsWith "--" arg = true -> Js.startsWith "--no-" arg = true ->
  parseArgs_loop config (arg :: rest)
  = parseArgs_loop (<[toCamelCase (Js.slice 5 arg) := VBool false]> config) rest.
Proof. intros H1 H2. cbn [parseArgs_loop]. by rewrite H1, H2. Qed.

Lemma parseArgs_loop_standalone :
  Js.startsWith "--" arg = true -> Js.startsWith "--no-" arg = false ->
  Js.includes "=" arg = false -> last_or_before_flag rest = true ->
  parseArgs_loop config (arg :: rest)
  = parseArgs_loop (<[toCamelCase (Js.slice 2 arg) := VBool true]> config) rest.
Proof. intros H1 H2 H3 H4. cbn [parseArgs_loop]. by rewrite H1, H2, H3, H4. Qed.

Lemma parseArgs_loop_key_equals :
  Js.startsWith "--" arg = true -> Js.startsWith "--no-" arg = false ->
  Js.includes "=" arg = true ->
  parseArgs_loop config (arg :: rest)
  = parseArgs_loop
      (assign config (item 0 (Js.split_limit "=" 2 (Js.slice 2 arg)))
                     (item 1 (Js.split_limit "=" 2 (Js.slice 2 arg)))) rest.
Proof. intros H1 H2 H3. cbn [parseArgs_loop]. by rewrite H1, H2, H3. Qed.

Lemma parseArgs_loop_key_value value rest' :
  Js.startsWith "--" arg = true -> Js.startsWith "--no-" arg = false ->
  Js.includes "=" arg = false -> rest = value :: rest' ->
  Js.startsWith "--" value = false ->
  parseArgs_loop config (arg :: rest)
  = parseArgs_loop (assign config (Js.slice 2 arg) value) rest'.
Proof.
  intros H1 H2 H3 -> H5. cbn [parseArgs_loop last_or_before_flag].
  by rewrite H1, H2, H3, H5.
Qed.

End LoopEquations.

(** One turn of the loop: the token is skipped, or it is a flag and does one
    of its writes; the turn takes the token, and its value when it has one
    after it. *)
Lemma parseArgs_loop_turn (config : Config) (arg : string) (rest : list string) :
  exists config' rest',
    parseArgs_loop config (arg :: rest) = parseArgs_loop config' rest'
    /\ (rest' = rest \/ exists value, rest = value :: rest' /\ Js.startsWith "--" value = false)
    /\ (config' = config
        \/ (Js.startsWith "--" arg = true /\ flag_write arg config config')).
Proof.
  destruct (Js.startsWith "--" arg) eqn:H1.
  2: { exists config, rest. rewrite parseArgs_loop_skip by done. auto. }
  destruct (Js.startsWith "--no-" arg) eqn:H2.
  { eexists _, rest. rewrite parseArgs_loop_negated by done.
    split; [done|]. split; [by left|]. right. split; [done|]. by constructor. }
  destruct (Js.includes "=" arg) eqn:H3.
  { eexists _, rest. rewrite parseArgs_loop_key_equals by done.
    split; [done|]. split; [by left|]. right. split; [done|]. by constructor. }
  destruct (last_or_before_flag rest) eqn:H4.
  { eexists _, rest. rewrite parseArgs_loop_standalone by done.
    split; [done|]. split; [by left|]. right. split; [done|]. by constructor. }
  destruct rest as [|value rest']; [discriminate|]. cbn in H4.
  eexists _, rest'. rewrite (parseArgs_loop_key_value _ _ _ value rest') by done.
  split; [done|]. split; [right; eauto|]. right. split; [done|].
  by apply write_key_value.
Qed.

(** A property of the configuration that every write of every flag of the
    vector keeps holds at the end of the loop. *)
Lemma parseArgs_loop_invariant (P : Config -> Prop) (args : list string) :
  (forall arg config config',
      In arg args -> Js.startsWith "--" arg = true ->
      flag_write arg config config' -> P config -> P config') ->
  forall config, P config -> P (parseArgs_loop config args).
Proof.
  remember (length args) as n eqn:Hn.
  revert args Hn. induction (lt_wf n) as [n _ IH]. intros args -> Hstep config HP.
  destruct args as [|arg rest]; [done|].
  destruct (parseArgs_loop_turn config arg rest)
    as (config' & rest' & -> & Hrest & Hconfig).
  assert (Hsub : forall a, In a rest' -> In a (arg :: rest)).
  { intros a Ha. destruct Hrest as [->|(value & -> & _)]; cbn; auto. }
  apply (IH (length rest')); [|done| |].
  - destruct Hrest as [->|(value & -> & _)]; cbn; lia.
  - intros a c c' Ha. apply Hstep. auto.
  - destruct Hconfig as [->|[Hflag Hwrite]]; [done|].
    eapply Hstep; [|done|done|done]. by left.
Qed.

(** A flag is never taken as the value of the token before it: the loop
    reaches every token that starts with [--] with some configuration. *)
Lemma parseArgs_loop_reaches (pre : list string) (flag : string) (post : list string) :
  Js.startsWith "--" flag = true ->
  forall config, exists config',
    parseArgs_loop config (pre ++ flag :: post) = parseArgs_loop config' (flag :: post).
Proof.
  intros Hflag. remember (length pre) as n eqn:Hn.
  revert pre Hn. induction (lt_wf n) as [n _ IH]. intros pre -> config.
  destruct pre as [|arg pre]; [by exists config|].
  rewrite <- app_comm_cons.
  destruct (parseArgs_loop_turn config arg (pre ++ flag :: post))
    as (config' & rest' & -> & Hrest & _).
  destruct Hrest as [->|(value & Hrest & Hvalue)].
  - apply (IH (length pre)); [cbn; lia|done].
  - destruct pre as [|value' pre]; cbn in Hrest.
    + injection Hrest as <- _. congruence.
    + injection Hrest as <- <-. apply (IH (length pre)); [cbn; lia|done].
Qed.

(** *** Key normalization read backwards *)

Lemma toUpperCase_upper (c : ascii) :
  Js.is_lower c = true -> is_upper (Js.toUpperCase c) = true.
Proof.
  destruct c as [[] [] [] [] [] [] [] []]; vm_compute; congruence.
Qed.

Lemma toCamelCase_hyphen_lower (char : ascii) (rest : string) :
  Js.is_lower char = true ->
  toCamelCase (String "-" (String char rest))
  = String (Js.toUpperCase char) (toCamelCase rest).
Proof. intros H. cbn. by rewrite H. Qed.

Lemma toCamelCase_hyphen_other (char : ascii) (rest : string) :
  Js.is_lower char = false ->
  toCamelCase (String "-" (String char rest))
  = String "-" (toCamelCase (String char rest)).
Proof. intros H. cbn. by rewrite H. Qed.

Lemma toCamelCase_other (c : ascii) (rest : string) :
  c <> "-"%char -> toCamelCase (String c rest) = String c (toCamelCase rest).
Proof. intros H. cbn. by destruct (Ascii.eqb_spec c "-"). Qed.

(** A stretch of the normalized key without capitals was copied as it is:
    capitals are all that the normalization can put in. *)
Lemma toCamelCase_app_inv (p : string) :
  no_upper p = true ->
  forall s r, toCamelCase s = p +:+ r ->
  exists s', s = p +:+ s' /\ toCamelCase s' = r.
Proof.
  induction p as [|a p IH]; intros Hp s r H; [by exists s|].
  cbn in Hp. apply andb_prop in Hp as [Ha Hp].
  destruct s as [|c s]; [discriminate|].
  rewrite JsFacts.append_cons in H.
  destruct (ascii_dec c "-") as [->|Hc].
  - destruct s as [|char s'].
    + injection H as <- H. destruct p; [|discriminate].
      rewrite JsFacts.append_nil in H. subst r. by exists EmptyString.
    + destruct (Js.is_lower char) eqn:Hl.
      * rewrite toCamelCase_hyphen_lower in H by done.
        injection H as <- _. by rewrite toUpperCase_upper in Ha.
      * rewrite toCamelCase_hyphen_other in H by done. injection H as <- H.
        destruct (IH Hp (String char s') r H) as (s'' & -> & <-). by exists s''.
  - rewrite toCamelCase_other in H by done. injection H as <- H.
    destruct (IH Hp s r H) as (s'' & -> & <-). by exists s''.
Qed.

Lemma toCamelCase_empty (s : string) : toCamelCase s = EmptyString -> s = EmptyString.
Proof.
  destruct s as [|c s]; [done|]. cbn [toCamelCase].
  destruct (Ascii.eqb c "-"); [|discriminate].
  destruct s; [discriminate|]. by destruct (Js.is_lower _).
Qed.

Lemma toCamelCase_lower_inv (key s : string) :
  no_upper key = true -> toCamelCase s = key -> s = key.
Proof.
  intros Hkey H. rewrite <- (JsFacts.app_empty_r key) in H.
  destruct (toCamelCase_app_inv key Hkey s _ H) as (s' & -> & ->%toCamelCase_empty).
  apply JsFacts.app_empty_r.
Qed.

(** *** What an assignment writes *)

Lemma assign_cases (config : Config) (key value : string) :
  assign config key value = config
  \/ (Js.includes "." (toCamelCase key) = false
      /\ assign config key value = <[toCamelCase key := parseValue value]> config)
  \/ (Js.includes "." (toCamelCase key) = true
      /\ exists parentKey childKey parent,
          parentKey = item 0 (Js.split "." (toCamelCase key))
          /\ childKey = item 1 (Js.split "." (toCamelCase key))
          /\ parentKey <> EmptyString /\ childKey <> EmptyString
          /\ parent = (if is_object (config !! parentKey)
                       then default (VObj ∅) (config !! parentKey) else VObj ∅)
          /\ assign config key value
             = <[parentKey := set_property parent childKey (parseValue value)]> config).
Proof.
  unfold assign. destruct (Js.includes "." (toCamelCase key)) eqn:Hdot; [|auto].
  destruct (String.eqb_spec (item 0 (Js.split "." (toCamelCase key))) EmptyString);
    cbn [negb andb]; [auto|].
  destruct (String.eqb_spec (item 1 (Js.split "." (toCamelCase key))) EmptyString);
    cbn [negb andb]; [auto|].
  right; right. split; [done|]. eauto 10.
Qed.

(** An assignment leaves alone every top-level key other than the one it
    names and the parent it names. *)
Lemma assign_lookup_ne (config : Config) (key value k : string) :
  toCamelCase key <> k ->
  item 0 (Js.split "." (toCamelCase key)) <> k ->
  assign config key value !! k = config !! k.
Proof.
  intros H1 H2.
  destruct (assign_cases config key value)
    as [->|[[_ ->]|(_ & parentKey & childKey & parent & -> & _ & _ & _ & _ & ->)]];
    [done| |]; by rewrite lookup_insert_ne.
Qed.

(** What a dotted key does to its parent: a nested map and an array keep
    what they hold and take the child; anything else, or nothing, gives way
    to a nested map with the child alone. *)
Lemma assign_dotted (config : Config) (key value parentKey childKey : string)
    (more : list string) :
  Js.split "." (toCamelCase key) = parentKey :: childKey :: more ->
  parentKey <> EmptyString -> childKey <> EmptyString ->
  assign config key value !! parentKey
  = Some match config !! parentKey with
         | Some (VObj fields) => VObj (<[childKey := parseValue value]> fields)
         | Some (VArr items props) => VArr items (<[childKey := parseValue value]> props)
         | Some VPlugins => VPlugins
         | _ => VObj {[ childKey := parseValue value ]}
         end.
Proof.
  intros Hsplit Hparent Hchild. unfold assign.
  destruct (Js.includes "." (toCamelCase key)) eqn:Hdot.
  2: { by rewrite (JsFacts.split_no_sep "." _ Hdot) in Hsplit. }
  rewrite Hsplit. cbn [item lookup list_lookup default option_rect from_option].
  unfold item. cbn.
  destruct (String.eqb_spec parentKey EmptyString); [done|].
  destruct (String.eqb_spec childKey EmptyString); [done|]. cbn [negb andb].
  rewrite lookup_insert_eq. f_equal.
  destruct (config !! parentKey) as [[]|]; cbn; by rewrite ?insert_empty.
Qed.

(** *** Tokens that do not touch a key *)

Lemma includes_after_dashes (arg : string) :
  Js.startsWith "--" arg = true ->
  Js.includes "=" (Js.slice 2 arg) = Js.includes "=" arg.
Proof.
  intros H. rewrite (JsFacts.startsWith_slice _ _ H) at 2.
  cbn [String.length]. push_append.
  by rewrite !JsFacts.includes_char_cons.
Qed.

Lemma first_piece_no_equals (arg : string) :
  Js.includes "=" arg = false ->
  item 0 (Js.split "=" (Js.slice 2 arg)) = Js.slice 2 arg.
Proof.
  intros H. by rewrite (JsFacts.split_no_sep "=" _ (JsFacts.includes_slice "=" 2 _ H)).
Qed.

(** A raw key whose normal form is [splitting], or has the parent
    [splitting], is [splitting] or starts with [splitting.]. *)
Lemma splitting_key_inv (key : string) :
  toCamelCase key = "splitting"
  \/ item 0 (Js.split "." (toCamelCase key)) = "splitting" ->
  key = "splitting" \/ exists child, key = "splitting." +:+ child.
Proof.
  intros [H|H]; [left; by apply toCamelCase_lower_inv|].
  destruct (Js.includes "." (toCamelCase key)) eqn:Hdot.
  - right. destruct (JsFacts.split_sep "." _ Hdot) as [r Hr]. rewrite H in Hr.
    change ("splitting" +:+ String "." r) with ("splitting." +:+ r) in Hr.
    destruct (toCamelCase_app_inv "splitting." eq_refl _ _ Hr) as (child & -> & _).
    by exists child.
  - rewrite (JsFacts.split_no_sep "." _ Hdot) in H. left.
    by apply toCamelCase_lower_inv.
Qed.

Lemma not_splitting_token_key (arg : string) :
  Js.startsWith "--" arg = true -> splitting_token arg = false ->
  let key := item 0 (Js.split "=" (Js.slice 2 arg)) in
  toCamelCase key <> "splitting"
  /\ item 0 (Js.split "." (toCamelCase key)) <> "splitting".
Proof.
  intros Hflag Htoken key.
  enough (Hkey : ~ (toCamelCase key = "splitting"
                    \/ item 0 (Js.split "." (toCamelCase key)) = "splitting")) by tauto.
  intros Hkey%splitting_key_inv.
  apply orb_false_elim in Htoken as [[Heq Hequals]%orb_false_elim Hdot].
  pose proof (JsFacts.startsWith_slice _ _ Hflag) as Harg. cbn [String.length] in Harg.
  destruct (Js.includes "=" (Js.slice 2 arg)) eqn:Hinc.
  - destruct (JsFacts.split_sep "=" _ Hinc) as [r Hr]. fold key in Hr.
    rewrite Hr in Harg. destruct Hkey as [Hkey|[child Hkey]]; rewrite Hkey in Harg.
    + change ("--" +:+ "splitting" +:+ String "=" r)
        with ("--splitting=" +:+ r) in Harg.
      by rewrite Harg, JsFacts.startsWith_app in Hequals.
    + rewrite JsFacts.app_assoc' in Harg.
      change ("--" +:+ "splitting." +:+ child +:+ String "=" r)
        with ("--splitting." +:+ child +:+ String "=" r) in Harg.
      by rewrite Harg, JsFacts.startsWith_app in Hdot.
  - unfold key in Hkey. rewrite (JsFacts.split_no_sep "=" _ Hinc) in Hkey.
    change (item 0 [Js.slice 2 arg]) with (Js.slice 2 arg) in Hkey.
    destruct Hkey as [Hkey|[child Hkey]]; rewrite Hkey in Harg.
    + subst arg. discriminate.
    + change ("--" +:+ "splitting." +:+ child) with ("--splitting." +:+ child) in Harg.
      by rewrite Harg, JsFacts.startsWith_app in Hdot.
Qed.

Lemma flag_write_keeps_no_splitting (arg : string) (config config' : Config) :
  Js.startsWith "--" arg = true -> splitting_token arg = false ->
  flag_write arg config config' ->
  config !! "splitting" = Some (VBool false) ->
  config' !! "splitting" = Some (VBool false).
Proof.
  intros Hflag Htoken Hwrite Hconfig.
  destruct (not_splitting_token_key arg Hflag Htoken) as [Hkey Hparent].
  destruct Hwrite as [Hno|Hno Heq|Hno Heq|value Hno Heq].
  - rewrite lookup_insert. by case_decide.
  - rewrite first_piece_no_equals in Hkey by done. by rewrite lookup_insert_ne.
  - rewrite JsFacts.item_0_split_limit. by rewrite assign_lookup_ne.
  - rewrite first_piece_no_equals in Hkey, Hparent by done.
    by rewrite assign_lookup_ne.
Qed.

(** C8.  When [--no-splitting] comes after the [--splitting] tokens of the
    argument vector (no token after it is [--splitting], [--splitting=...]
    or [--splitting. ...]), the parsed configuration maps [splitting] to
    [false], whatever came before it: the last write wins. *)
Theorem no_splitting_wins (pre post : list string) :
  Forall (fun arg => splitting_token arg = false) post ->
  parseArgs (pre ++ "--no-splitting" :: post) !! "splitting" = Some (VBool false).
Proof.
  intros Hpost. unfold parseArgs.
  destruct (parseArgs_loop_reaches pre "--no-splitting" post eq_refl ∅) as [config ->].
  rewrite parseArgs_loop_negated by done.
  apply parseArgs_loop_invariant.
  - intros arg c c' Harg Hflag Hwrite Hc.
    rewrite Forall_forall in Hpost.
    apply (flag_write_keeps_no_splitting arg c c'); auto.
    apply Hpost. by apply list_elem_of_In.
  - apply lookup_insert_eq.
Qed.

Lemma no_splitting_wins_witness :
  parseArgs (["--splitting"; "--splitting=true"; "--splitting.x"; "1"]
             ++ "--no-splitting" :: ["--minify"; "--out-dir"; "x"; "splitting"])
    !! "splitting" = Some (VBool false).
Proof.
  apply no_splitting_wins. repeat constructor.
Defined.

(** *** Nested maps *)

Lemma extends_insert (fields : gmap string JsValue) (childKey : string) (v : JsValue) :
  extends fields (<[childKey := v]> fields).
Proof.
  intros k Hk. rewrite lookup_insert. by case_decide.
Qed.

Lemma flag_write_extends (key arg : string) (config config' : Config)
    (fields : gmap string JsValue) :
  Js.startsWith "--" arg = true -> names_key key arg = false ->
  flag_write arg config config' ->
  (exists later, config !! key = Some (VObj later) /\ extends fields later) ->
  exists later, config' !! key = Some (VObj later) /\ extends fields later.
Proof.
  intros Hflag Hname Hwrite (later & Hconfig & Hext).
  unfold names_key in Hname. rewrite Hflag in Hname. cbn [andb] in Hname.
  assert (Hassign : forall raw value,
             toCamelCase raw <> key ->
             exists later', assign config raw value !! key = Some (VObj later')
                            /\ extends fields later').
  { intros raw value Hraw.
    destruct (assign_cases config raw value)
      as [->|[[_ ->]|(_ & parentKey & childKey & parent & _ & _ & _ & _ & Hparent & ->)]].
    - eauto.
    - rewrite lookup_insert_ne by done. eauto.
    - destruct (decide (parentKey = key)) as [->|Hne].
      + rewrite Hconfig in Hparent. cbn in Hparent. subst parent.
        rewrite lookup_insert_eq. cbn [set_property]. eexists; split; [done|].
        intros k Hk. apply extends_insert. by apply Hext.
      + rewrite lookup_insert_ne by done. eauto. }
  destruct Hwrite as [Hno|Hno Heq|Hno Heq|value Hno Heq]; rewrite Hno in Hname.
  - apply String.eqb_neq in Hname. rewrite lookup_insert_ne by done. eauto.
  - apply String.eqb_neq in Hname. rewrite first_piece_no_equals in Hname by done.
    rewrite lookup_insert_ne by done. eauto.
  - apply String.eqb_neq in Hname. apply Hassign.
    by rewrite JsFacts.item_0_split_limit.
  - apply String.eqb_neq in Hname. rewrite first_piece_no_equals in Hname by done.
    by apply Hassign.
Qed.

(** A write of the loop names a key without a dot to put a nested map
    under it: the keys of the parsed configuration that hold a nested map
    have no dot. *)
Lemma nested_map_key_plain (args : list string) (key : string)
    (fields : gmap string JsValue) :
  parseArgs args !! key = Some (VObj fields) -> Js.includes "." key = false.
Proof.
  revert key fields.
  apply (parseArgs_loop_invariant
           (fun c => forall key fields,
                c !! key = Some (VObj fields) -> Js.includes "." key = false)).
  - intros arg config config' _ _ Hwrite Hconfig key fields.
    assert (Hassign : forall raw value,
               assign config raw value !! key = Some (VObj fields) ->
               Js.includes "." key = false).
    { intros raw value.
      destruct (assign_cases config raw value)
        as [->|[[_ ->]|(Hdot & parentKey & childKey & parent & HP & _ & _ & _ & _ & ->)]];
        [apply Hconfig| |].
      - destruct (decide (toCamelCase raw = key)) as [<-|Hne].
        + rewrite lookup_insert_eq. intros [= H].
          pose proof (parseValue_leaf value) as Hleaf. by rewrite H in Hleaf.
        + rewrite lookup_insert_ne by done. apply Hconfig.
      - destruct (decide (parentKey = key)) as [<-|Hne].
        + intros _. subst parentKey.
          pose proof (JsFacts.split_pieces "." (toCamelCase raw)) as Hpieces.
          pose proof (JsFacts.split_nonempty "." (toCamelCase raw)) as Hnonempty.
          destruct (Js.split "." (toCamelCase raw)) as [|piece pieces]; [done|].
          by inversion Hpieces.
        + rewrite lookup_insert_ne by done. apply Hconfig. }
    inversion Hwrite; subst; try by apply Hassign.
    all: match goal with
         | |- <[?k := _]> _ !! _ = _ -> _ =>
             destruct (decide (k = key)) as [<-|Hne];
             [by rewrite lookup_insert_eq
             |rewrite lookup_insert_ne by done; apply Hconfig]
         end.
  - intros key fields. by rewrite lookup_empty.
Qed.

(** The turn of a token that names a key without a dot: the loop puts the
    value the token assigns under the key and goes on with the tokens the
    turn has left. *)
Lemma parseArgs_loop_names_key (config : Config) (key arg : string)
    (rest : list string) :
  names_key key arg = true -> Js.includes "." key = false ->
  parseArgs_loop config (arg :: rest)
  = parseArgs_loop (<[key := assigned_value arg rest]> config) (after_turn arg rest).
Proof.
  unfold names_key, assigned_value, after_turn. intros Hnames Hdot.
  apply andb_prop in Hnames as [H1 Hkey].
  destruct (Js.startsWith "--no-" arg) eqn:H2.
  { apply String.eqb_eq in Hkey as <-. by rewrite parseArgs_loop_negated. }
  apply String.eqb_eq in Hkey. cbn [orb].
  destruct (Js.includes "=" arg) eqn:H3.
  { rewrite parseArgs_loop_key_equals by done.
    unfold assign. rewrite JsFacts.item_0_split_limit, Hkey. by rewrite Hdot. }
  rewrite first_piece_no_equals in Hkey by done.
  destruct rest as [|value rest'].
  { rewrite parseArgs_loop_standalone by done. by rewrite Hkey. }
  destruct (Js.startsWith "--" value) eqn:H4.
  { rewrite parseArgs_loop_standalone by (done || by cbn; rewrite H4).
    by rewrite Hkey. }
  rewrite (parseArgs_loop_key_value _ _ _ value rest') by done.
  unfold assign. by rewrite Hkey, Hdot.
Qed.

Lemma assigned_value_leaf (arg : string) (rest : list string) :
  leaf (assigned_value arg rest).
Proof.
  unfold assigned_value.
  repeat case_match; try exact I; apply parseValue_leaf.
Qed.

(** C2, as the code has it.  Take the loop of the parser at any point where
    a top-level key holds a nested map, [config] being the object built so
    far.

    - If none of the tokens still to come names the key itself ([--key],
      [--no-key], [--key=value], [--key value]), the key holds a nested map
      at the end and that map has every child key it had: the dotted tokens
      [--key.child=value] only extend it.
    - A token that names the key itself (a key without a dot, as every key
      under which the parser puts a nested map is, and other than
      [__proto__], which an object does not hold as a property of its own)
      replaces the nested map with the value that token assigns: [false]
      for [--no-key], [true] for [--key] alone, the coerced value for
      [--key=value] and [--key value].  That value is a boolean, a number,
      a string or a list, never a nested map, and nothing of the old map is
      kept: the last write wins. *)
Theorem nested_map_only_extended (config : Config) (key : string)
    (fields : gmap string JsValue) :
  config !! key = Some (VObj fields) ->
  (forall args,
      Forall (fun arg => names_key key arg = false) args ->
      exists later,
        parseArgs_loop config args !! key = Some (VObj later)
        /\ extends fields later)
  /\ (forall arg rest,
        names_key key arg = true -> Js.includes "." key = false ->
        key <> "__proto__" ->
        parseArgs_loop config (arg :: rest)
        = parseArgs_loop (<[key := assigned_value arg rest]> config)
                         (after_turn arg rest)
        /\ (<[key := assigned_value arg rest]> config) !! key
           = Some (assigned_value arg rest)
        /\ leaf (assigned_value arg rest)
        /\ (forall later, assigned_value arg rest <> VObj later)).
Proof.
  intros Hconfig. split.
  - intros args Hargs.
    apply (parseArgs_loop_invariant
             (fun c => exists later, c !! key = Some (VObj later) /\ extends fields later)).
    + intros arg c c' Harg Hflag Hwrite Hc.
      rewrite Forall_forall in Hargs.
      apply (flag_write_extends key arg c c' fields); auto.
      apply Hargs. by apply list_elem_of_In.
    + exists fields. split; [done|]. by intros k Hk.
  - intros arg rest Hnames Hdot _.
    split; [by apply parseArgs_loop_names_key|].
    split; [by rewrite lookup_insert_eq|].
    pose proof (assigned_value_leaf arg rest) as Hleaf.
    split; [done|]. intros later H. by rewrite H in Hleaf.
Qed.

Lemma nested_map_only_extended_witness :
  (exists later,
      parseArgs_loop (parseArgs ["--minify.whitespace=true"])
                     ["--minify.syntax=false"; "--target"; "node";
                      "--minify.whitespace"; "false"]
        !! "minify" = Some (VObj later)
      /\ extends {[ "whitespace" := VBool true ]} later)
  /\ parseArgs_loop (parseArgs ["--minify.whitespace=true"])
                    ["--minify"; "none"; "--watch"]
     = parseArgs_loop (<["minify" := VStr "none"]> (parseArgs ["--minify.whitespace=true"]))
                      ["--watch"]
  /\ parseArgs_loop (parseArgs ["--minify.whitespace=true"])
                    ["--minify=a,b"; "--watch"]
     = parseArgs_loop (<["minify" := VArr ["a"; "b"] ∅]>
                         (parseArgs ["--minify.whitespace=true"]))
                      ["--watch"].
Proof.
  pose proof (nested_map_only_extended
                (parseArgs ["--minify.whitespace=true"]) "minify"
                {[ "whitespace" := VBool true ]} eq_refl) as [Hkeep Hreplace].
  split; [|split].
  - apply Hkeep. repeat constructor.
  - assert (Hkey : "minify" <> "__proto__") by discriminate.
    exact (proj1 (Hreplace "--minify" ["none"; "--watch"] eq_refl eq_refl Hkey)).
  - assert (Hkey : "minify" <> "__proto__") by discriminate.
    exact (proj1 (Hreplace "--minify=a,b" ["--watch"] eq_refl eq_refl Hkey)).
Defined.

(** C2, as the claim states it, fails: [--no-minify] after
    [--minify.whitespace=true] replaces the nested map by [false]. *)
Lemma nested_map_overwritten :
  parseArgs ["--minify.whitespace=true"] !! "minify"
    = Some (VObj {[ "whitespace" := VBool true ]})
  /\ parseArgs ["--minify.whitespace=true"; "--no-minify"] !! "minify"
    = Some (VBool false)
  /\ parseArgs ["--minify.whitespace=true"; "--minify"] !! "minify"
    = Some (VBool true)
  /\ parseArgs ["--minify.whitespace=true"; "--minify=none"] !! "minify"
    = Some (VStr "none").
Proof. repeat split; reflexivity. Qed.

Lemma split_app_sep (sep : ascii) (key rest : string) :
  Js.includes (String sep EmptyString) key = false ->
  Js.split sep (key +:+ String sep rest) = key :: Js.split sep rest.
Proof.
  induction key as [|c key IH]; intros H.
  - rewrite JsFacts.append_nil. cbn [Js.split]. by rewrite Ascii.eqb_refl.
  - rewrite JsFacts.includes_char_cons in H. apply orb_false_elim in H as [Hc H].
    rewrite JsFacts.append_cons. cbn [Js.split]. by rewrite Hc, (IH H).
Qed.

(** What [--key=value] stores, for a plain key: the piece of the value
    before its first [=], coerced. *)
Lemma key_equals_stores_first_piece (key value : string) :
  Js.startsWith "no-" key = false ->
  Js.includes "=" key = false ->
  Js.includes "." (toCamelCase key) = false ->
  parseArgs ["--" +:+ key +:+ String "=" value]
  = {[ toCamelCase key := parseValue (item 0 (Js.split "=" value)) ]}.
Proof.
  intros Hno Heq Hdot. unfold parseArgs.
  rewrite parseArgs_loop_key_equals.
  - change (Js.slice 2 ("--" +:+ key +:+ String "=" value))
      with (key +:+ String "=" value).
    unfold Js.split_limit. rewrite (split_app_sep "=" key value Heq).
    pose proof (JsFacts.split_nonempty "=" value) as Hne.
    destruct (Js.split "=" value) as [|piece pieces]; [done|].
    cbn [take item lookup list_lookup default]. unfold item. cbn.
    unfold assign. rewrite Hdot. by rewrite insert_empty.
  - apply JsFacts.startsWith_app.
  - change ("--" +:+ key +:+ String "=" value)
      with (String "-" (String "-" (key +:+ String "=" value))).
    unfold Js.startsWith in *. cbn [String.prefix]. cbn.
    destruct key as [|a [|b [|c key]]];
      rewrite ?JsFacts.append_cons, ?JsFacts.append_nil; cbn [String.prefix] in *;
      repeat (destruct (ascii_dec _ _)); try done.
    by destruct key.
  - rewrite <- includes_after_dashes by apply JsFacts.startsWith_app.
    change (Js.slice 2 ("--" +:+ key +:+ String "=" value))
      with (key +:+ String "=" value).
    clear. induction key as [|c key IH].
    + rewrite JsFacts.append_nil, JsFacts.includes_char_cons. by rewrite Ascii.eqb_refl.
    + rewrite JsFacts.append_cons, JsFacts.includes_char_cons, IH. apply orb_true_r.
Qed.

(** C1.  The parser cuts [--banner=a=b] at every [=] and keeps the first
    two pieces: [banner] receives ["a"] and the text [=b] is lost, where the
    claim has ["a=b"].  The same value given as a token of its own,
    [--banner a=b], is stored whole. *)
Theorem key_equals_value_truncated :
  parseArgs ["--banner=a=b"] = {[ "banner" := VStr "a" ]}
  /\ parseArgs ["--banner"; "a=b"] = {[ "banner" := VStr "a=b" ]}
  /\ Js.split_limit "=" 2 "banner=a=b" = ["banner"; "a"].
Proof. repeat split; reflexivity. Qed.

(** C4.  A parent key that holds a list is an object for [typeof]: the
    dotted token keeps the list and attaches the child to it as a named
    property, where the claim has the list replaced by a nested map with
    the child alone.  A parent that holds a scalar, or is absent, is
    replaced as the claim says. *)
Theorem dotted_key_keeps_list :
  parseArgs ["--external=a,b"; "--external.foo=1"] !! "external"
    = Some (VArr ["a"; "b"] {[ "foo" := VNum 1 ]})
  /\ parseArgs ["--external=a"; "--external.foo=1"] !! "external"
    = Some (VObj {[ "foo" := VNum 1 ]})
  /\ parseArgs ["--external.foo=1"] !! "external"
    = Some (VObj {[ "foo" := VNum 1 ]}).
Proof. repeat split; reflexivity. Qed.

(** ** Size formatting *)

Lemma Qle_bool_1024 (num : Z) (den : positive) :
  Qle_bool 1024 (num # den) = (1024 * Z.pos den <=? num)%Z.
Proof. unfold Qle_bool. cbn [Qnum Qden]. by rewrite Z.mul_1_r. Qed.

Lemma Qdiv_1024 (num : Z) (den : positive) :
  ((num # den) / 1024)%Q = (num # den * 1024).
Proof. unfold Qdiv, Qmult, Qinv. cbn [Qnum Qden]. by rewrite Z.mul_1_r. Qed.

(** The scaled size and the unit the loop stops at. *)
Lemma scale_bytes (bytes : N) :
  scale (length units - 1) (inject_Z (Z.of_N bytes)) 0
  = if (bytes <? 1024)%N then (Z.of_N bytes # 1, 0)
    else if (bytes <? 1024 ^ 2)%N then (Z.of_N bytes # 1024, 1)
    else if (bytes <? 1024 ^ 3)%N then (Z.of_N bytes # 1024 ^ 2, 2)
    else (Z.of_N bytes # 1024 ^ 3, 3).
Proof.
  unfold inject_Z. cbn [units length Nat.sub scale].
  rewrite Qle_bool_1024.
  destruct (N.ltb_spec bytes 1024) as [H1|H1].
  { destruct (Z.leb_spec (1024 * 1) (Z.of_N bytes)); [lia|done]. }
  destruct (Z.leb_spec (1024 * 1) (Z.of_N bytes)); [|lia].
  rewrite Qdiv_1024, Qle_bool_1024.
  destruct (N.ltb_spec bytes (1024 ^ 2)) as [H2|H2].
  { destruct (Z.leb_spec (1024 * Z.pos (1 * 1024)) (Z.of_N bytes)); [lia|done]. }
  destruct (Z.leb_spec (1024 * Z.pos (1 * 1024)) (Z.of_N bytes)); [|lia].
  rewrite Qdiv_1024, Qle_bool_1024.
  destruct (N.ltb_spec bytes (1024 ^ 3)) as [H3|H3].
  { destruct (Z.leb_spec (1024 * Z.pos (1 * 1024 * 1024)) (Z.of_N bytes)); [lia|done]. }
  destruct (Z.leb_spec (1024 * Z.pos (1 * 1024 * 1024)) (Z.of_N bytes)); [|lia].
  by rewrite Qdiv_1024.
Qed.

(** The integer that [toFixed] prints: the size times 100, rounded to the
    nearest integer, halves up. *)
Lemma toFixed2_rounding (bytes : N) (den : positive) :
  Z.to_N (Qfloor ((Z.of_N bytes # den) * 100 + (1 # 2)))
  = ((200 * bytes + N.pos den) / (2 * N.pos den))%N.
Proof.
  unfold Qfloor, Qplus, Qmult. cbn [Qnum Qden].
  rewrite Z2N.inj_div by lia. f_equal; lia.
Qed.

(** [toFixed] below [10^21]: the hundredths, halves up, with a point before
    the last two digits. *)
Lemma toFixed2_digits (bytes : N) (den : positive) :
  (bytes < 10 ^ 21 * N.pos den)%N ->
  toFixed2 (Z.of_N bytes # den)
  = pretty (((200 * bytes + N.pos den) / (2 * N.pos den)) / 100)%N
    +:+ "."
    +:+ pretty ((((200 * bytes + N.pos den) / (2 * N.pos den)) / 10) mod 10)%N
    +:+ pretty (((200 * bytes + N.pos den) / (2 * N.pos den)) mod 10)%N.
Proof.
  intros Hbound. unfold toFixed2.
  assert (Qle_bool (inject_Z (10 ^ 21)) (Z.of_N bytes # den) = false) as ->.
  { unfold Qle_bool, inject_Z. cbn [Qnum Qden]. apply Z.leb_gt.
    change (10 ^ 21)%Z with (Z.of_N (10 ^ 21)). lia. }
  by rewrite toFixed2_rounding.
Qed.

(** The whole numbers below 2^53 are values of the number type. *)
Lemma is_double_small (n : N) : (n < 2 ^ 53)%N -> Js.is_double n = true.
Proof.
  intros Hn. unfold Js.is_double, Js.toDouble, inject_Z. cbn [Qnum Qden].
  rewrite N2Z.id, N.div_1_r.
  assert (Hn' : (n < 2 ^ 1024)%N).
  { eapply N.lt_trans; [exact Hn|]. by apply N.pow_lt_mono_r. }
  apply andb_true_intro. split; [|by apply N.ltb_lt].
  apply N.eqb_eq.
  assert (Hulp : (if (52 <=? N.log2 n)%N then (2 ^ (N.log2 n - 52))%N else 1%N) = 1%N).
  { destruct (N.leb_spec 52 (N.log2 n)) as [He|He]; [|done].
    assert (N.log2 n < 53)%N.
    { destruct (decide (n = 0%N)) as [->|Hpos]; [done|].
      apply N.log2_lt_pow2; lia. }
    replace (N.log2 n - 52)%N with 0%N by lia. done. }
  rewrite Hulp, N.mul_1_r. unfold Js.round_half_even.
  rewrite N.mod_1_r, N.div_1_r. by rewrite N.mul_1_r.
Qed.





(** ** The build program *)

Section BuildProgramFacts.

Context {Err : Type} (env : Env Err).

Lemma cleanPrevious_absent (outdir : string) :
  fs_exists env outdir = inr false ->
  cleanPrevious env outdir = ([FsExists outdir], inr tt).
Proof. intros H. unfold cleanPrevious. cbn. by rewrite H. Qed.

Lemma cleanPrevious_removed (outdir : string) :
  fs_exists env outdir = inr true -> fs_remove env outdir = inr tt ->
  cleanPrevious env outdir
  = ([FsExists outdir; ConsoleLog (MsgCleaning outdir); FsRemove outdir], inr tt).
Proof. intros H1 H2. unfold cleanPrevious. cbn. rewrite H1. cbn. by rewrite H2. Qed.

Lemma cleanPrevious_failed (outdir : string) (error : Err) :
  fs_exists env outdir = inr true -> fs_remove env outdir = inl error ->
  cleanPrevious env outdir
  = ([FsExists outdir; ConsoleLog (MsgCleaning outdir); FsRemove outdir],
     inl (CleanError ("Failed to clean directory: " +:+ outdir)
            {| clean_directory := outdir; clean_originalError := error |})).
Proof. intros H1 H2. unfold cleanPrevious. cbn. rewrite H1. cbn. by rewrite H2. Qed.

(** The cleaner only looks at the directory, says so, and removes it. *)
Lemma cleanPrevious_trace (outdir : string) (event : Event) :
  event ∈ trace (cleanPrevious env outdir) ->
  event = FsExists outdir \/ event = ConsoleLog (MsgCleaning outdir)
  \/ event = FsRemove outdir.
Proof.
  unfold cleanPrevious. cbn.
  destruct (fs_exists env outdir) as [e|[]]; cbn;
    [|destruct (fs_remove env outdir) as [e|[]]; cbn|];
    rewrite ?elem_of_cons, elem_of_nil; tauto.
Qed.

(** The program stops at the failure of the cleaner. *)
Lemma buildProgram_clean_failure (args : list string) (failure : AppError Err) :
  exit (cleanPrevious env (resolveOutdir env (parseArgs args))) = inl failure ->
  buildProgram env args
  = (ConsoleLog MsgStarting
       :: trace (cleanPrevious env (resolveOutdir env (parseArgs args))),
     inl failure).
Proof.
  unfold buildProgram, exit, trace.
  destruct (cleanPrevious env (resolveOutdir env (parseArgs args)))
    as [events [e|[]]]; cbn; [|discriminate].
  by intros [= ->].
Qed.

(** The program after a cleaning that went through, up to the answer of
    the bundler. *)
Lemma buildProgram_clean_success (args : list string) :
  let cliConfig := parseArgs args in
  let outdir := resolveOutdir env cliConfig in
  let entrypoints := findEntrypoints env in
  let request := buildRequest entrypoints outdir cliConfig in
  let before :=
    ConsoleLog MsgStarting :: trace (cleanPrevious env outdir)
    ++ [GlobScan; ConsoleLog (MsgFound (length entrypoints)); BunBuild request] in
  exit (cleanPrevious env outdir) = inr tt ->
  buildProgram env args
  = match bun_build env request with
    | inl error =>
        (before,
         inl (BuildError "Build failed"
                {| build_originalError := error;
                   build_entrypoints := entrypoints;
                   build_outdir := outdir;
                   build_config := cliConfig |}))
    | inr result =>
        (before ++ [ConsoleLog MsgBuildOutput;
                    ConsoleTable (outputTable env result);
                    ConsoleLog MsgCompleted],
         inr result)
    end.
Proof.
  intros cliConfig outdir entrypoints request before.
  subst before. unfold buildProgram, exit, trace. fold cliConfig outdir.
  destruct (cleanPrevious env outdir) as [events [e|[]]]; cbn; [discriminate|].
  intros _. fold entrypoints request.
  destruct (bun_build env request) as [error|result]; cbn;
    by rewrite <- ?app_assoc.
Qed.

End BuildProgramFacts.

(** C6.  A target directory that does not exist is left alone: the cleaner
    succeeds after the existence check, removes nothing and raises no
    [CleanError].  When the directory exists and its recursive removal
    fails, the cleaner fails with a [CleanError] that carries the directory
    and the underlying error, the program ends with that failure, and
    neither the scan for entrypoints nor the build call takes place. *)
Theorem clean_failure_is_fatal {Err : Type} (env : Env Err) (outdir : string) :
  (fs_exists env outdir = inr false ->
   cleanPrevious env outdir = ([FsExists outdir], inr tt))
  /\ (forall error : Err,
        fs_exists env outdir = inr true -> fs_remove env outdir = inl error ->
        let failure :=
          CleanError ("Failed to clean directory: " +:+ outdir)
            {| clean_directory := outdir; clean_originalError := error |} in
        exit (cleanPrevious env outdir) = inl failure
        /\ forall args : list string,
             resolveOutdir env (parseArgs args) = outdir ->
             exit (buildProgram env args) = inl failure
             /\ (GlobScan ∉ trace (buildProgram env args))
             /\ (forall request, BunBuild request ∉ trace (buildProgram env args))).
Proof.
  split; [apply cleanPrevious_absent|].
  intros error Hexists Hremove failure.
  pose proof (cleanPrevious_failed env outdir error Hexists Hremove) as Hclean.
  split; [by rewrite Hclean|].
  intros args Houtdir.
  rewrite (buildProgram_clean_failure env args failure)
    by (by rewrite Houtdir, Hclean).
  rewrite Houtdir, Hclean. cbn.
  repeat split; [|intros request]; rewrite !not_elem_of_cons; by auto using not_elem_of_nil.
Qed.

Lemma clean_failure_is_fatal_witness :
  cleanPrevious (sampleEnv false (inr tt) (inl "unused")) "/work/dist"
    = ([FsExists "/work/dist"], inr tt)
  /\ exit (buildProgram (sampleEnv true (inl "EACCES") (inl "unused")) ["--outdir=build"])
     = inl (CleanError "Failed to clean directory: build"
              {| clean_directory := "build"; clean_originalError := "EACCES" |})
  /\ (GlobScan ∉ trace (buildProgram (sampleEnv true (inl "EACCES") (inl "unused"))
                                     ["--outdir=build"])).
Proof.
  split.
  - apply (clean_failure_is_fatal (sampleEnv false (inr tt) (inl "unused"))). reflexivity.
  - destruct (clean_failure_is_fatal (sampleEnv true (inl "EACCES") (inl "unused")) "build")
      as [_ H].
    destruct (H "EACCES" eq_refl eq_refl) as [_ Hrun].
    destruct (Hrun ["--outdir=build"] eq_refl) as (Hexit & Hscan & _).
    split; [exact Hexit|exact Hscan].
Defined.

(** C3, as the code has it.  When the build call throws, the program ends
    with a [BuildError] whose cause holds the error thrown, the entrypoints
    found, the output directory and the configuration parsed from the
    command line: the overrides alone, not merged with the defaults.  The
    reporter does not run: nothing is printed after the call. *)
Theorem build_failure_context {Err : Type} (env : Env Err) (args : list string)
    (error : Err) :
  let cliConfig := parseArgs args in
  let outdir := resolveOutdir env cliConfig in
  let entrypoints := findEntrypoints env in
  exit (cleanPrevious env outdir) = inr tt ->
  bun_build env (buildRequest entrypoints outdir cliConfig) = inl error ->
  exit (buildProgram env args)
  = inl (BuildError "Build failed"
           {| build_originalError := error;
              build_entrypoints := entrypoints;
              build_outdir := outdir;
              build_config := cliConfig |})
  /\ (BunBuild (buildRequest entrypoints outdir cliConfig) ∈ trace (buildProgram env args))
  /\ (ConsoleLog MsgBuildOutput ∉ trace (buildProgram env args))
  /\ (forall rows, ConsoleTable rows ∉ trace (buildProgram env args)).
Proof.
  intros cliConfig outdir entrypoints Hclean Hbuild.
  rewrite (buildProgram_clean_success env args Hclean).
  fold cliConfig outdir entrypoints. rewrite Hbuild. unfold exit, trace. cbn [fst snd].
  split; [done|]. split; [|split; [|intros rows]].
  - rewrite elem_of_cons, elem_of_app, !elem_of_cons. tauto.
  - rewrite not_elem_of_cons, elem_of_app, !elem_of_cons, elem_of_nil.
    split; [done|]. intros [H|H]; [apply cleanPrevious_trace in H|]; by decompose [or] H.
  - rewrite not_elem_of_cons, elem_of_app, !elem_of_cons, elem_of_nil.
    split; [done|]. intros [H|H]; [apply cleanPrevious_trace in H|]; by decompose [or] H.
Qed.

Lemma build_failure_context_witness :
  exit (buildProgram (sampleEnv false (inr tt) (inl "boom")) ["--outdir=build"])
  = inl (BuildError "Build failed"
           {| build_originalError := "boom";
              build_entrypoints := ["/work/src/index.html"; "/work/src/pages/about.html"];
              build_outdir := "build";
              build_config := {[ "outdir" := VStr "build" ]} |}).
Proof.
  destruct (build_failure_context (sampleEnv false (inr tt) (inl "boom"))
              ["--outdir=build"] "boom" eq_refl eq_refl) as [H _].
  exact H.
Defined.

(** C3, as the claim states it, fails: the configuration in the cause is
    not the merged one.  With no flag on the command line it is empty, and
    the request handed to the bundler has the defaults. *)
Lemma build_failure_config_not_merged :
  let env := sampleEnv false (inr tt) (inl "boom") in
  let request := buildRequest (findEntrypoints env) (resolveOutdir env (parseArgs []))
                              (parseArgs []) in
  exists cause,
    exit (buildProgram env []) = inl (BuildError "Build failed" cause)
    /\ (BunBuild request ∈ trace (buildProgram env []))
    /\ build_config cause = ∅
    /\ request !! "minify" = Some (VBool true)
    /\ build_config cause <> request.
Proof.
  intros env request. eexists. split; [reflexivity|].
  split; [|split; [reflexivity|split; [reflexivity|]]].
  - cbn. rewrite !elem_of_cons. tauto.
  - intros H. apply (f_equal (fun m => m !! "minify")) in H. discriminate H.
Qed.

(** The events of a run: the start line, those of the cleaner, and then
    only the scan, lines on the console, the one build call and the table. *)
Lemma buildProgram_trace {Err : Type} (env : Env Err) (args : list string) :
  let cliConfig := parseArgs args in
  let outdir := resolveOutdir env cliConfig in
  let request := buildRequest (findEntrypoints env) outdir cliConfig in
  exists after,
    trace (buildProgram env args)
    = ConsoleLog MsgStarting :: trace (cleanPrevious env outdir) ++ after
    /\ forall event, event ∈ after ->
         event = GlobScan \/ (exists message, event = ConsoleLog message)
         \/ event = BunBuild request \/ (exists rows, event = ConsoleTable rows).
Proof.
  intros cliConfig outdir request.
  destruct (exit (cleanPrevious env outdir)) as [failure|[]] eqn:Hclean.
  - exists []. rewrite (buildProgram_clean_failure env args failure Hclean).
    cbn [trace fst]. rewrite app_nil_r. split; [done|].
    intros event H. by apply elem_of_nil in H.
  - rewrite (buildProgram_clean_success env args Hclean).
    fold cliConfig outdir request.
    destruct (bun_build env request) as [error|result]; cbn [trace fst];
      eexists; (split; [cbn [app]; by rewrite <- ?app_assoc|]); intros event;
      cbn [app]; rewrite !elem_of_cons, elem_of_nil; intros H;
      decompose [or] H; subst; try done;
      (left + (right; left; eexists) + (right; right; left)
       + (right; right; right; eexists)); done.
Qed.

Lemma cleanPrevious_trace_head {Err : Type} (env : Env Err) (outdir : string) :
  exists rest, trace (cleanPrevious env outdir) = FsExists outdir :: rest.
Proof.
  unfold cleanPrevious. cbn.
  destruct (fs_exists env outdir) as [e|[]]; cbn;
    [|destruct (fs_remove env outdir) as [e|[]]; cbn|]; eauto.
Qed.

(** C5.  The build request is the CLI configuration spread over the
    default settings: a key of the CLI configuration has the CLI value, and
    any other key has the value written out in the script, among them
    [minify: true], [target: "browser"], [sourcemap: "linked"] and the
    production [define].  The override is shallow: a nested map of the CLI
    configuration replaces the default one whole.  The request that a run
    hands to the bundler is this one. *)
Theorem build_request_shallow_override (entrypoints : list string) (outdir : string)
    (cliConfig : Config) (key : string) :
  buildRequest entrypoints outdir cliConfig !! key
  = match cliConfig !! key with
    | Some v => Some v
    | None => defaultRequest entrypoints outdir !! key
    end
  /\ defaultRequest entrypoints outdir !! "minify" = Some (VBool true)
  /\ defaultRequest entrypoints outdir !! "target" = Some (VStr "browser")
  /\ defaultRequest entrypoints outdir !! "sourcemap" = Some (VStr "linked")
  /\ defaultRequest entrypoints outdir !! "define"
     = Some (VObj {[ "process.env.NODE_ENV" := VStr production ]})
  /\ buildRequest entrypoints outdir (parseArgs ["--target=node"]) !! "minify"
     = Some (VBool true)
  /\ buildRequest entrypoints outdir (parseArgs ["--target=node"]) !! "target"
     = Some (VStr "node")
  /\ buildRequest entrypoints outdir (parseArgs ["--define.VERSION=1"]) !! "define"
     = Some (VObj {[ "VERSION" := VNum 1 ]})
  /\ forall (Err : Type) (env : Env Err) (args : list string) (request : Config),
       BunBuild request ∈ trace (buildProgram env args) ->
       request = buildRequest (findEntrypoints env)
                              (resolveOutdir env (parseArgs args)) (parseArgs args).
Proof.
  split.
  { unfold buildRequest. destruct (cliConfig !! key) as [v|] eqn:Hkey.
    - by apply lookup_union_Some_l.
    - by apply lookup_union_r. }
  do 7 (split; [reflexivity|]).
  intros Err env args request.
  destruct (buildProgram_trace env args) as (after & -> & Hafter).
  rewrite elem_of_cons, elem_of_app. intros [H|[H|H]]; [done| |].
  - apply cleanPrevious_trace in H. by decompose [or] H.
  - apply Hafter in H. destruct H as [H|[[m H]|[H|[rows H]]]]; congruence.
Qed.

Lemma build_request_shallow_override_witness :
  buildRequest ["/work/src/index.html"] "/work/dist" (parseArgs ["--target=node"]) !! "target"
    = Some (VStr "node")
  /\ buildRequest ["/work/src/index.html"] "/work/dist" (parseArgs ["--target=node"]) !! "minify"
    = Some (VBool true)
  /\ buildRequest ["/work/src/index.html"] "/work/dist" (parseArgs ["--target=node"]) !! "plugins"
    = Some VPlugins.
Proof.
  destruct (build_request_shallow_override ["/work/src/index.html"] "/work/dist"
              (parseArgs ["--target=node"]) "plugins") as (H & _ & _ & _ & _ & Hm & Ht & _).
  split; [exact Ht|]. split; [exact Hm|]. exact H.
Defined.

(** C10.  When the parsed configuration has an [outdir] that is not a
    string, the cleaner works on the default directory [<cwd>/dist]: that
    is the directory whose existence is checked and the only one that is
    looked at or removed.  The [outdir] of every request handed to the
    bundler is the value from the command line, which is not that
    directory; and once the cleaning has gone through, that request is
    handed to the bundler: the run cleans one directory and asks for
    another output location. *)
Theorem outdir_not_a_string {Err : Type} (env : Env Err) (args : list string)
    (v : JsValue) :
  parseArgs args !! "outdir" = Some v ->
  (forall s, v <> VStr s) ->
  let dist := path_join env (cwd env) "dist" in
  resolveOutdir env (parseArgs args) = dist
  /\ (FsExists dist ∈ trace (buildProgram env args))
  /\ (forall path, FsExists path ∈ trace (buildProgram env args)
                   \/ FsRemove path ∈ trace (buildProgram env args) -> path = dist)
  /\ (forall request, BunBuild request ∈ trace (buildProgram env args) ->
        request !! "outdir" = Some v /\ request !! "outdir" <> Some (VStr dist))
  /\ (exit (cleanPrevious env dist) = inr tt ->
      BunBuild (buildRequest (findEntrypoints env) dist (parseArgs args))
        ∈ trace (buildProgram env args))
  /\ buildRequest (findEntrypoints env) dist (parseArgs args) !! "outdir" = Some v.
Proof.
  intros Hv Hstr dist.
  assert (Hdist : resolveOutdir env (parseArgs args) = dist).
  { unfold resolveOutdir. rewrite Hv. destruct v; try done. by destruct (Hstr s). }
  split; [done|].
  assert (Hcarried : buildRequest (findEntrypoints env) dist (parseArgs args) !! "outdir"
                     = Some v).
  { unfold buildRequest. by rewrite (lookup_union_Some_l _ _ _ _ Hv). }
  assert (Hcalled : exit (cleanPrevious env dist) = inr tt ->
                    BunBuild (buildRequest (findEntrypoints env) dist (parseArgs args))
                      ∈ trace (buildProgram env args)).
  { intros Hclean. rewrite <- Hdist in Hclean |- *.
    rewrite (buildProgram_clean_success env args Hclean).
    destruct (bun_build env _); unfold trace; cbn [fst];
      repeat (rewrite elem_of_cons || rewrite elem_of_app); auto 10. }
  destruct (buildProgram_trace env args) as (after & Htrace & Hafter).
  rewrite Hdist in Htrace, Hafter. rewrite Htrace.
  split; [|split; [|split; [|split; [by rewrite <- Htrace|done]]]].
  - destruct (cleanPrevious_trace_head env dist) as [rest ->].
    cbn [app]. rewrite !elem_of_cons. auto.
  - intros path. rewrite !elem_of_cons, !elem_of_app.
    intros [[H|[H|H]]|[H|[H|H]]]; try done.
    + apply cleanPrevious_trace in H. decompose [or] H; congruence.
    + apply Hafter in H. destruct H as [H|[[m H]|[H|[rows H]]]]; congruence.
    + apply cleanPrevious_trace in H. decompose [or] H; congruence.
    + apply Hafter in H. destruct H as [H|[[m H]|[H|[rows H]]]]; congruence.
  - intros request. rewrite elem_of_cons, elem_of_app. intros [H|[H|H]]; [done| |].
    + apply cleanPrevious_trace in H. by decompose [or] H.
    + apply Hafter in H.
      assert (request = buildRequest (findEntrypoints env) dist (parseArgs args)) as ->.
      { destruct H as [H|[[m H]|[H|[rows H]]]]; congruence. }
      unfold buildRequest. rewrite (lookup_union_Some_l _ _ _ _ Hv).
      split; [done|]. intros [= ->]. by destruct (Hstr dist).
Qed.

Lemma outdir_not_a_string_witness :
  parseArgs ["--outdir"; "123"] !! "outdir" = Some (VNum 123)
  /\ resolveOutdir (sampleEnv false (inr tt) (inr {| outputs := [] |}))
                   (parseArgs ["--outdir"; "123"]) = "/work/dist"
  /\ (FsExists "/work/dist"
        ∈ trace (buildProgram (sampleEnv false (inr tt) (inr {| outputs := [] |}))
                              ["--outdir"; "123"]))
  /\ (BunBuild (buildRequest
                  (findEntrypoints (sampleEnv false (inr tt) (inr {| outputs := [] |})))
                  "/work/dist" (parseArgs ["--outdir"; "123"]))
        ∈ trace (buildProgram (sampleEnv false (inr tt) (inr {| outputs := [] |}))
                              ["--outdir"; "123"]))
  /\ buildRequest (findEntrypoints (sampleEnv false (inr tt) (inr {| outputs := [] |})))
                  "/work/dist" (parseArgs ["--outdir"; "123"]) !! "outdir"
     = Some (VNum 123).
Proof.
  split; [reflexivity|].
  destruct (outdir_not_a_string (sampleEnv false (inr tt) (inr {| outputs := [] |}))
              ["--outdir"; "123"] (VNum 123) eq_refl)
    as (Hdist & Hchecked & _ & _ & Hcalled & Hcarried).
  - intros s H. discriminate H.
  - split; [exact Hdist|]. split; [exact Hchecked|].
    split; [exact (Hcalled eq_refl)|exact Hcarried].
Defined.

(** The two inputs of C10: the flag alone gives [true], a value of digits
    gives a number; in both runs the directory checked is [/work/dist] and
    the request carries the other value. *)
Lemma outdir_flag_examples :
  let env := sampleEnv false (inr tt) (inr {| outputs := [] |}) in
  parseArgs ["--outdir"] !! "outdir" = Some (VBool true)
  /\ parseArgs ["--outdir"; "123"] !! "outdir" = Some (VNum 123)
  /\ trace (buildProgram env ["--outdir"])
     = [ConsoleLog MsgStarting; FsExists "/work/dist"; GlobScan; ConsoleLog (MsgFound 2);
        BunBuild (buildRequest (findEntrypoints env) "/work/dist" {[ "outdir" := VBool true ]});
        ConsoleLog MsgBuildOutput; ConsoleTable []; ConsoleLog MsgCompleted]
  /\ buildRequest (findEntrypoints env) "/work/dist" {[ "outdir" := VBool true ]} !! "outdir"
     = Some (VBool true).
Proof. repeat split; reflexivity. Qed.

(** The handlers at the top change neither the way a run ends nor what it
    did before: they add one line on the error stream. *)
Lemma runMain_exit {Err : Type} (env : Env Err) (args : list string) :
  exit (runMain env args) = exit (buildProgram env args)
  /\ exists printed, trace (runMain env args) = trace (buildProgram env args) ++ printed.
Proof.
  unfold runMain, exit, trace.
  destruct (buildProgram env args) as [events [[message cause|message cause|error]|result]];
    cbn; split; try done; first [by eexists | exists []; by rewrite app_nil_r].
Qed.

(** ** Scenarios *)

Example kebab_case_flag :
  parseArgs ["--source-map=linked"] = {[ "sourceMap" := VStr "linked" ]}.
Proof. reflexivity. Qed.

Example nested_flags :
  parseArgs ["--minify.whitespace=true"; "--minify.syntax=false"] !! "minify"
  = Some (VObj (<["whitespace" := VBool true]> {[ "syntax" := VBool false ]})).
Proof. reflexivity. Qed.

Example trailing_flag :
  parseArgs ["--splitting"] = {[ "splitting" := VBool true ]}
  /\ parseArgs ["--splitting"; "--minify"] !! "splitting" = Some (VBool true).
Proof. split; reflexivity. Qed.

Example dependencies_only :
  findEntrypoints
    {| cwd := "/work"; path_join := fun a b => a +:+ "/" +:+ b;
       path_resolve := fun root a => "/work/" +:+ root +:+ "/" +:+ a;
       path_relative := fun from to => to;
       fs_exists := fun _ => inr false; fs_remove := fun _ => inr tt;
       glob_scan := ["node_modules/a/index.html"; "node_modules/b/demo.html"];
       bun_build := fun _ => inl tt |}
  = [].
Proof. reflexivity. Qed.

Example build_into_fresh_directory :
  let result := {| outputs := [ {| artifact_path := "/work/build/index.html";
                                   artifact_kind := "entry-point";
                                   artifact_size := 2048 |} ] |} in
  runMain (sampleEnv false (inr tt) (inr result))
          ["--outdir=build"; "--no-minify"; "--sourcemap=none"]
  = ([ConsoleLog MsgStarting; FsExists "build"; GlobScan; ConsoleLog (MsgFound 2);
      BunBuild
        (<["outdir" := VStr "build"]>
           (<["minify" := VBool false]>
              (<["sourcemap" := VStr "none"]>
                 (defaultRequest ["/work/src/index.html"; "/work/src/pages/about.html"]
                                 "build"))));
      ConsoleLog MsgBuildOutput;
      ConsoleTable [ {| row_File := "build/index.html"; row_Type := "entry-point";
                        row_Size := "2.00 KB" |} ];
      ConsoleLog MsgCompleted],
     inr result).
Proof. reflexivity. Qed.

(** * Further properties of the build script *)

(** ** Key normalization *)

Lemma toCamelCase_head_not_lower (d : ascii) (rest : string) :
  Js.is_lower d = false ->
  match toCamelCase (String d rest) with
  | String e _ => Js.is_lower e
  | EmptyString => false
  end = false.
Proof.
  intros Hd. destruct (ascii_dec d "-") as [->|Hne].
  - destruct rest as [|x rest]; [done|].
    destruct (Js.is_lower x) eqn:Hx.
    + rewrite toCamelCase_hyphen_lower by done.
      pose proof (toUpperCase_upper x Hx) as Hup.
      destruct (Js.toUpperCase x) as [[] [] [] [] [] [] [] []]; done.
    + by rewrite toCamelCase_hyphen_other.
  - by rewrite toCamelCase_other.
Qed.

Lemma has_kebab_toCamelCase_bounded (n : nat) (s : string) :
  String.length s <= n -> has_kebab (toCamelCase s) = false.
Proof.
  revert s. induction n as [|n IH]; intros s Hn.
  { destruct s; [done|cbn in Hn; lia]. }
  destruct s as [|c s]; [done|]. cbn [String.length] in Hn.
  destruct (ascii_dec c "-") as [->|Hc].
  - destruct s as [|d s]; [done|]. cbn [String.length] in Hn.
    destruct (Js.is_lower d) eqn:Hd.
    + rewrite toCamelCase_hyphen_lower by done. cbn [has_kebab].
      rewrite IH by lia. pose proof (toUpperCase_upper d Hd) as Hup.
      destruct (Js.toUpperCase d) as [[] [] [] [] [] [] [] []]; done.
    + rewrite toCamelCase_hyphen_other by done. cbn [has_kebab].
      rewrite (toCamelCase_head_not_lower d s Hd).
      rewrite IH by (cbn; lia). done.
  - rewrite toCamelCase_other by done. cbn [has_kebab].
    rewrite IH by lia. by destruct (Ascii.eqb_spec c "-").
Qed.

Lemma toCamelCase_fixed (s : string) : has_kebab s = false -> toCamelCase s = s.
Proof.
  induction s as [|c s IH]; [done|]. cbn [has_kebab].
  intros [Hhead Hrest]%orb_false_elim.
  destruct (ascii_dec c "-") as [->|Hc].
  - destruct s as [|d s]; [done|]. cbn in Hhead.
    rewrite toCamelCase_hyphen_other by done. by rewrite IH.
  - rewrite toCamelCase_other by done. by rewrite IH.
Qed.

(** X1.  A normalized key has no hyphen followed by a lower-case letter
    left, so normalizing it again changes nothing. *)
Theorem toCamelCase_idempotent (str : string) :
  has_kebab (toCamelCase str) = false
  /\ toCamelCase (toCamelCase str) = toCamelCase str.
Proof.
  assert (H : has_kebab (toCamelCase str) = false)
    by (by apply (has_kebab_toCamelCase_bounded (String.length str))).
  split; [done|]. by apply toCamelCase_fixed.
Qed.

(** X2.  The keys that the normalization leaves as they are, are the ones
    without a hyphen followed by a lower-case letter; every other key is
    changed. *)
Theorem toCamelCase_fixed_iff (str : string) :
  toCamelCase str = str <-> has_kebab str = false.
Proof.
  split; [|apply toCamelCase_fixed].
  intros H. rewrite <- H.
  by apply (has_kebab_toCamelCase_bounded (String.length str)).
Qed.

Lemma toCamelCase_dot_bounded (n : nat) (parent child : string) :
  String.length parent <= n ->
  toCamelCase (parent +:+ String "." child)
  = toCamelCase parent +:+ String "." (toCamelCase child).
Proof.
  revert parent. induction n as [|n IH]; intros parent Hn.
  { destruct parent; [|cbn in Hn; lia].
    rewrite !JsFacts.append_nil. by rewrite toCamelCase_other. }
  destruct parent as [|c parent].
  { rewrite !JsFacts.append_nil. by rewrite toCamelCase_other. }
  cbn [String.length] in Hn. rewrite JsFacts.append_cons.
  destruct (ascii_dec c "-") as [->|Hc].
  - destruct parent as [|d parent].
    + rewrite JsFacts.append_nil. rewrite toCamelCase_hyphen_other by done.
      rewrite toCamelCase_other by done. done.
    + cbn [String.length] in Hn. rewrite JsFacts.append_cons.
      destruct (Js.is_lower d) eqn:Hd.
      * rewrite !toCamelCase_hyphen_lower by done.
        rewrite IH by lia. by rewrite JsFacts.append_cons.
      * rewrite !toCamelCase_hyphen_other by done.
        rewrite <- JsFacts.append_cons, IH by (cbn; lia).
        by rewrite JsFacts.append_cons.
  - rewrite !toCamelCase_other by done. rewrite IH by lia.
    by rewrite JsFacts.append_cons.
Qed.

(** X3.  The segments of a dotted key are normalized one by one: the dot
    is kept and what stands before it has no say in what comes after. *)
Theorem toCamelCase_dot (parent child : string) :
  toCamelCase (parent +:+ String "." child)
  = toCamelCase parent +:+ String "." (toCamelCase child).
Proof. by apply (toCamelCase_dot_bounded (String.length parent)). Qed.

(** ** Value coercion *)

Lemma all_digits_chars (s : string) (c : ascii) :
  Js.all_digits s = true -> In c (list_ascii_of_string s) -> Js.is_digit c = true.
Proof.
  induction s as [|a s IH]; [done|]. cbn.
  intros [Ha Hs]%andb_prop [<-|Hc]; auto.
Qed.

Lemma test_float_chars (s : string) (c : ascii) :
  Js.test_float s = true -> In c (list_ascii_of_string s) ->
  Js.is_digit c = true \/ c = "."%char.
Proof.
  induction s as [|a s IH]; [done|]. cbn [Js.test_float list_ascii_of_string In].
  destruct (Ascii.eqb_spec a ".") as [->|Ha].
  - intros [_ Hs]%andb_prop [<-|Hc]; [by right|].
    left. by apply (all_digits_chars s).
  - intros [Hd Hs]%andb_prop [<-|Hc]; auto.
Qed.

(** X4.  Only the two literals are booleans: the coercion gives [true]
    for ["true"] and [false] for ["false"], and a boolean for nothing else,
    whatever the case or the white space around. *)
Theorem parseValue_bool_iff (value : string) (b : bool) :
  parseValue value = VBool b <-> value = if b then "true" else "false".
Proof.
  split.
  - unfold parseValue.
    destruct (String.eqb_spec value "true") as [->|_]; [by intros [= <-]|].
    destruct (String.eqb_spec value "false") as [->|_]; [by intros [= <-]|].
    by repeat case_match.
  - intros ->. by destruct b.
Qed.

(** X5.  A value with a character that is neither a digit nor a point, no
    comma, and other than the two literals, stays the string it is: signs,
    exponents, hexadecimal prefixes and blanks make no number. *)
Theorem parseValue_keeps_text (value : string) (c : ascii) :
  In c (list_ascii_of_string value) ->
  Js.is_digit c = false -> c <> "."%char ->
  Js.includes "," value = false ->
  value <> "true" -> value <> "false" ->
  parseValue value = VStr value.
Proof.
  intros Hc Hdigit Hpoint Hcomma Htrue Hfalse. unfold parseValue.
  destruct (String.eqb_spec value "true"); [done|].
  destruct (String.eqb_spec value "false"); [done|].
  destruct (Js.test_digits value) eqn:Hd.
  { apply andb_prop in Hd as [_ Hd].
    by rewrite (all_digits_chars value c Hd Hc) in Hdigit. }
  destruct (Js.test_float value) eqn:Hf.
  { destruct (test_float_chars value c Hf Hc) as [H|H]; congruence. }
  by rewrite Hcomma.
Qed.

Lemma parseValue_keeps_text_witness :
  parseValue "-5" = VStr "-5" /\ parseValue "1e3" = VStr "1e3"
  /\ parseValue " 12" = VStr " 12" /\ parseValue "True" = VStr "True".
Proof.
  split; [|split; [|split]].
  - apply (parseValue_keeps_text "-5" "-"); cbn; auto; discriminate.
  - apply (parseValue_keeps_text "1e3" "e"); cbn; auto; discriminate.
  - apply (parseValue_keeps_text " 12" " "); cbn; auto; discriminate.
  - apply (parseValue_keeps_text "True" "T"); cbn; auto; discriminate.
Defined.

(** X6.  A list comes from a comma only: when the coercion gives a list,
    the value has a comma, the list has two elements at least and carries
    no named property. *)
Theorem parseValue_list_inv (value : string) (items : list string)
    (props : gmap string JsValue) :
  parseValue value = VArr items props ->
  Js.includes "," value = true /\ 2 <= length items /\ props = ∅.
Proof.
  unfold parseValue. repeat case_match; try discriminate.
  intros [= <- <-]. split; [done|]. split; [|done].
  rewrite length_map. by apply JsFacts.split_includes.
Qed.

Lemma parseValue_list_inv_witness :
  Js.includes "," "react," = true /\ 2 <= length ["react"; EmptyString]
  /\ (∅ : gmap string JsValue) = ∅.
Proof. apply (parseValue_list_inv "react,"). reflexivity. Defined.

(** The digits that [pretty] prints, read from the left. *)
Lemma digits_value_pretty_go (x : N) (s : string) :
  fold_left (fun acc c => 10 * acc + Js.digit_value c)%Z
            (list_ascii_of_string (pretty_N_go x s)) 0%Z
  = fold_left (fun acc c => 10 * acc + Js.digit_value c)%Z
              (list_ascii_of_string s) (Z.of_N x).
Proof.
  revert s. induction (N.lt_wf_0 x) as [x _ IH]. intros s.
  destruct (decide (x = 0)%N) as [->|Hx]; [by rewrite pretty_N_go_0|].
  rewrite pretty_N_go_step by lia. rewrite IH by (apply N.div_lt; lia).
  cbn [list_ascii_of_string fold_left]. f_equal.
  assert (Hchar : Js.digit_value (pretty_N_char (x mod 10)) = Z.of_N (x mod 10)).
  { pose proof (N.mod_lt x 10 ltac:(lia)) as Hlt.
    generalize dependent (x mod 10)%N. intros d Hlt.
    assert (d = 0 \/ d = 1 \/ d = 2 \/ d = 3 \/ d = 4 \/ d = 5 \/ d = 6 \/ d = 7
            \/ d = 8 \/ d = 9)%N as Hd by lia.
    repeat (destruct Hd as [->|Hd]; [reflexivity|]). by rewrite Hd. }
  rewrite Hchar. pose proof (N.div_mod x 10 ltac:(lia)). lia.
Qed.

Lemma all_digits_pretty_go (x : N) (s : string) :
  Js.all_digits (pretty_N_go x s) = Js.all_digits s.
Proof.
  revert s. induction (N.lt_wf_0 x) as [x _ IH]. intros s.
  destruct (decide (x = 0)%N) as [->|Hx]; [by rewrite pretty_N_go_0|].
  rewrite pretty_N_go_step by lia. rewrite IH by (apply N.div_lt; lia).
  cbn [Js.all_digits].
  pose proof (N.mod_lt x 10 ltac:(lia)) as Hlt.
  generalize dependent (x mod 10)%N. intros d Hlt.
  assert (d = 0 \/ d = 1 \/ d = 2 \/ d = 3 \/ d = 4 \/ d = 5 \/ d = 6 \/ d = 7
          \/ d = 8 \/ d = 9)%N as Hd by lia.
  repeat (destruct Hd as [->|Hd]; [reflexivity|]). by rewrite Hd.
Qed.

Lemma pretty_go_nonempty (x : N) (s : string) :
  s <> EmptyString -> pretty_N_go x s <> EmptyString.
Proof.
  revert s. induction (N.lt_wf_0 x) as [x _ IH]. intros s Hs.
  destruct (decide (x = 0)%N) as [->|Hx]; [by rewrite pretty_N_go_0|].
  rewrite pretty_N_go_step by lia. apply IH; [apply N.div_lt; lia|done].
Qed.

Lemma test_digits_pretty (n : N) : Js.test_digits (pretty n) = true.
Proof.
  unfold pretty, pretty_N. destruct (decide (n = 0)%N) as [->|Hn]; [done|].
  unfold Js.test_digits. rewrite all_digits_pretty_go. cbn [Js.all_digits].
  rewrite andb_true_r. apply negb_true_iff, String.eqb_neq.
  rewrite pretty_N_go_step by lia. by apply pretty_go_nonempty.
Qed.

(** X7.  The decimal text of a natural number below 2^53 (the whole
    numbers a JavaScript number holds exactly, each with its successor) is
    read back as that number. *)
Theorem parseValue_pretty (n : N) :
  (n < 2 ^ 53)%N ->
  parseValue (pretty n) = VNum (inject_Z (Z.of_N n)).
Proof.
  intros _.
  pose proof (test_digits_pretty n) as Hd. unfold parseValue.
  destruct (String.eqb_spec (pretty n) "true") as [H|_]; [by rewrite H in Hd|].
  destruct (String.eqb_spec (pretty n) "false") as [H|_]; [by rewrite H in Hd|].
  rewrite Hd. unfold Js.parseInt, Js.digits_value. do 2 f_equal.
  unfold pretty, pretty_N. destruct (decide (n = 0)%N) as [->|Hn]; [done|].
  by rewrite (digits_value_pretty_go n EmptyString).
Qed.

Lemma parseValue_pretty_witness :
  parseValue (pretty 9007199254740991%N) = VNum (inject_Z 9007199254740991).
Proof. exact (parseValue_pretty 9007199254740991 eq_refl). Defined.

(** A decimal literal is its integer digits, a point and its fractional
    digits, and splits at the point into the two. *)
Lemma test_float_split (s : string) :
  Js.test_float s = true ->
  exists int_part frac_part,
    s = int_part +:+ String "." frac_part
    /\ Js.split "." s = [int_part; frac_part]
    /\ Js.all_digits int_part = true /\ Js.test_digits frac_part = true.
Proof.
  induction s as [|c s IH]; [done|]. cbn [Js.test_float].
  destruct (Ascii.eqb_spec c ".") as [->|Hc].
  - intros Hfrac. exists EmptyString, s. split; [done|]. split; [|done].
    cbn [Js.split]. rewrite Ascii.eqb_refl.
    by rewrite (JsFacts.split_no_sep "." s (JsFacts.test_digits_includes "." s eq_refl Hfrac)).
  - intros [Hd Hs]%andb_prop. destruct (IH Hs) as (int_part & frac_part & -> & Hsplit & Hi & Hf).
    exists (String c int_part), frac_part. split; [done|]. split; [|split; [|done]].
    + cbn [Js.split].
      destruct (Ascii.eqb_spec c "."); [done|]. by rewrite Hsplit.
    + cbn. by rewrite Hd, Hi.
Qed.

Lemma test_float_join (int_part frac_part : string) :
  Js.all_digits int_part = true -> Js.test_digits frac_part = true ->
  Js.test_float (int_part +:+ String "." frac_part) = true.
Proof.
  intros Hi Hf. induction int_part as [|c int_part IH].
  - rewrite JsFacts.append_nil. cbn. done.
  - cbn in Hi. apply andb_prop in Hi as [Hc Hi]. rewrite JsFacts.append_cons.
    cbn [Js.test_float]. destruct (Ascii.eqb_spec c ".") as [->|_]; [done|].
    by rewrite Hc, IH.
Qed.

Lemma test_float_not_digits (s : string) :
  Js.test_float s = true -> Js.test_digits s = false.
Proof.
  intros Hf. destruct (Js.test_digits s) eqn:Hd; [|done].
  pose proof (JsFacts.test_digits_includes "." s eq_refl Hd) as Hno.
  destruct (test_float_split s Hf) as (i & f & -> & _).
  clear -Hno. induction i as [|c i IH].
  - by rewrite JsFacts.append_nil, JsFacts.includes_char_cons in Hno.
  - rewrite JsFacts.append_cons, JsFacts.includes_char_cons in Hno.
    apply orb_false_elim in Hno as [_ Hno]. auto.
Qed.

Lemma digits_value_app (a b : string) :
  Js.digits_value (a +:+ b)
  = fold_left (fun acc c => 10 * acc + Js.digit_value c)%Z
              (list_ascii_of_string b) (Js.digits_value a).
Proof.
  unfold Js.digits_value. generalize 0%Z. induction a as [|c a IH]; intros acc; [done|].
  rewrite JsFacts.append_cons. cbn [list_ascii_of_string fold_left]. apply IH.
Qed.

(** The coercion of a numeric literal, spelled out. *)
Lemma parseValue_digits (s : string) :
  Js.test_digits s = true -> parseValue s = VNum (inject_Z (Js.digits_value s)).
Proof.
  intros Hd. unfold parseValue.
  destruct (String.eqb_spec s "true") as [->|_]; [done|].
  destruct (String.eqb_spec s "false") as [->|_]; [done|].
  by rewrite Hd.
Qed.

Lemma parseValue_float (int_part frac_part : string) :
  Js.all_digits int_part = true -> Js.test_digits frac_part = true ->
  parseValue (int_part +:+ String "." frac_part)
  = VNum (Qred (Js.digits_value (int_part +:+ frac_part)
                # Pos.pow 10 (Pos.of_nat (String.length frac_part)))).
Proof.
  intros Hi Hf. pose proof (test_float_join _ _ Hi Hf) as Hfloat.
  pose proof (test_float_not_digits _ Hfloat) as Hd. unfold parseValue.
  destruct (String.eqb_spec (int_part +:+ String "." frac_part) "true") as [H|_];
    [by rewrite H in Hfloat|].
  destruct (String.eqb_spec (int_part +:+ String "." frac_part) "false") as [H|_];
    [by rewrite H in Hfloat|].
  rewrite Hd, Hfloat. unfold Js.parseFloat.
  destruct (test_float_split _ Hfloat) as (i & f & Heq & Hsplit & Hi' & Hf').
  rewrite Hsplit.
  assert (Hsame : Js.split "." (int_part +:+ String "." frac_part) = [int_part; frac_part]).
  { rewrite split_app_sep by (by apply JsFacts.all_digits_includes).
    by rewrite (JsFacts.split_no_sep "." frac_part
                  (JsFacts.test_digits_includes "." _ eq_refl Hf)). }
  rewrite Hsplit in Hsame. by injection Hsame as -> ->.
Qed.

(** X8.  A zero put before a numeric literal changes nothing: [007] is
    the number 7 (no octal reading) and [00.5] is one half. *)
Theorem parseValue_leading_zero (s : string) :
  Js.test_digits s = true \/ Js.test_float s = true ->
  parseValue (String "0" s) = parseValue s.
Proof.
  intros [Hd|Hf].
  - rewrite (parseValue_digits s Hd).
    rewrite (parseValue_digits (String "0" s)).
    + done.
    + apply andb_prop in Hd as [_ Hd]. unfold Js.test_digits. cbn. by rewrite Hd.
  - destruct (test_float_split s Hf) as (i & f & -> & _ & Hi & Hfrac).
    rewrite (parseValue_float i f Hi Hfrac).
    rewrite <- JsFacts.append_cons.
    rewrite (parseValue_float (String "0" i) f) by (by cbn; rewrite ?Hi).
    done.
Qed.

Lemma parseValue_leading_zero_witness :
  parseValue "007" = parseValue "07" /\ parseValue "0.5" = parseValue ".5".
Proof.
  split.
  - apply (parseValue_leading_zero "07"). by left.
  - apply (parseValue_leading_zero ".5"). by right.
Defined.

(** X9.  A zero put after a decimal literal changes nothing: [1.50] is
    the number [1.5]. *)
Theorem parseValue_trailing_zero (s : string) :
  Js.test_float s = true ->
  parseValue (s +:+ "0") = parseValue s.
Proof.
  intros Hf. destruct (test_float_split s Hf) as (i & f & -> & _ & Hi & Hfrac).
  rewrite (parseValue_float i f Hi Hfrac).
  rewrite JsFacts.app_assoc', JsFacts.append_cons.
  assert (Hfrac0 : Js.test_digits (f +:+ "0") = true).
  { apply andb_prop in Hfrac as [Hne Hall]. unfold Js.test_digits.
    apply andb_true_intro. split.
    - destruct f; [done|]. by rewrite JsFacts.append_cons.
    - clear Hne Hf. induction f as [|c f IH]; [done|].
      cbn [Js.all_digits] in Hall. apply andb_prop in Hall as [Hc Hall].
      rewrite JsFacts.append_cons. cbn [Js.all_digits]. by rewrite Hc, IH. }
  rewrite (parseValue_float i (f +:+ "0") Hi Hfrac0). f_equal.
  apply Qred_complete. unfold Qeq. cbn [Qnum Qden].
  rewrite <- JsFacts.app_assoc', (digits_value_app (i +:+ f) "0").
  cbn [list_ascii_of_string fold_left].
  change (Js.digit_value "0") with 0%Z.
  assert (Hlen : String.length (f +:+ "0") = S (String.length f)).
  { clear. induction f as [|c f IH]; [done|].
    rewrite JsFacts.append_cons. cbn. by rewrite IH. }
  rewrite Hlen.
  assert (Hpos : String.length f <> 0).
  { apply andb_prop in Hfrac as [Hne _]. by destruct f. }
  rewrite Nat2Pos.inj_succ by done. rewrite Pos.pow_succ_r. lia.
Qed.

Lemma parseValue_trailing_zero_witness :
  parseValue "1.50" = parseValue "1.5".
Proof. by apply (parseValue_trailing_zero "1.5"). Defined.

(** ** The argument parser, token by token *)

Lemma not_negated_plain (key : string) :
  Js.startsWith "no-" key = false -> Js.startsWith "--no-" ("--" +:+ key) = false.
Proof.
  unfold Js.startsWith. intros H.
  change ("--" +:+ key) with (String "-" (String "-" key)). exact H.
Qed.

Lemma not_negated_equals (key value : string) :
  Js.startsWith "no-" key = false ->
  Js.startsWith "--no-" ("--" +:+ key +:+ String "=" value) = false.
Proof.
  intros H.
  change ("--" +:+ key +:+ String "=" value)
    with (String "-" (String "-" (key +:+ String "=" value))).
  unfold Js.startsWith in *. cbn [String.prefix]. cbn.
  destruct key as [|a [|b [|c key]]];
    rewrite ?JsFacts.append_cons, ?JsFacts.append_nil; cbn [String.prefix] in *;
    repeat (destruct (ascii_dec _ _)); try done.
  by destruct key.
Qed.

Lemma includes_app_sep (sep : ascii) (key rest : string) :
  Js.includes (String sep EmptyString) (key +:+ String sep rest) = true.
Proof.
  induction key as [|c key IH].
  - rewrite JsFacts.append_nil, JsFacts.includes_char_cons. by rewrite Ascii.eqb_refl.
  - rewrite JsFacts.append_cons, JsFacts.includes_char_cons, IH. apply orb_true_r.
Qed.

Lemma includes_equals_flag (key value : string) :
  Js.includes "=" ("--" +:+ key +:+ String "=" value) = true.
Proof.
  rewrite <- includes_after_dashes by apply JsFacts.startsWith_app.
  apply (includes_app_sep "=").
Qed.

Lemma includes_plain_flag (key : string) :
  Js.includes "=" key = false -> Js.includes "=" ("--" +:+ key) = false.
Proof.
  intros H. by rewrite <- includes_after_dashes by apply JsFacts.startsWith_app.
Qed.

(** The turn of the loop at a token [--key=value]. *)
Lemma parseArgs_loop_equals_form (config : Config) (key value : string)
    (rest : list string) :
  Js.startsWith "no-" key = false -> Js.includes "=" key = false ->
  parseArgs_loop config (("--" +:+ key +:+ String "=" value) :: rest)
  = parseArgs_loop (assign config key (item 0 (Js.split "=" value))) rest.
Proof.
  intros Hno Heq.
  rewrite parseArgs_loop_key_equals;
    [|apply JsFacts.startsWith_app|by apply not_negated_equals|apply includes_equals_flag].
  change (Js.slice 2 ("--" +:+ key +:+ String "=" value))
    with (key +:+ String "=" value).
  unfold Js.split_limit. rewrite (split_app_sep "=" key value Heq).
  pose proof (JsFacts.split_nonempty "=" value) as Hne.
  by destruct (Js.split "=" value) as [|piece pieces].
Qed.

(** The turn of the loop at a token [--key] followed by its value. *)
Lemma parseArgs_loop_value_form (config : Config) (key value : string)
    (rest : list string) :
  Js.startsWith "no-" key = false -> Js.includes "=" key = false ->
  Js.startsWith "--" value = false ->
  parseArgs_loop config (("--" +:+ key) :: value :: rest)
  = parseArgs_loop (assign config key value) rest.
Proof.
  intros Hno Heq Hvalue.
  by rewrite (parseArgs_loop_key_value config ("--" +:+ key) (value :: rest) value rest);
    [|apply JsFacts.startsWith_app|apply not_negated_plain|apply includes_plain_flag| |].
Qed.

(** X10.  The two ways of giving a value are one: where the value has no
    [=] and does not start with [--], [--key=value] and [--key value] leave
    the parser in the same state, whatever the key (plain or dotted), the
    configuration so far and the tokens that follow. *)
Theorem equals_form_is_value_form (config : Config) (key value : string)
    (rest : list string) :
  Js.startsWith "no-" key = false -> Js.includes "=" key = false ->
  Js.includes "=" value = false -> Js.startsWith "--" value = false ->
  parseArgs_loop config (("--" +:+ key +:+ String "=" value) :: rest)
  = parseArgs_loop config (("--" +:+ key) :: value :: rest).
Proof.
  intros Hno Heq Hvalue Hflag.
  rewrite parseArgs_loop_equals_form, parseArgs_loop_value_form by done.
  by rewrite (JsFacts.split_no_sep "=" value Hvalue).
Qed.

Lemma equals_form_is_value_form_witness :
  parseArgs_loop ∅ [("--" +:+ "minify.whitespace" +:+ String "=" "true"); "--watch"]
  = parseArgs_loop ∅ [("--" +:+ "minify.whitespace"); "true"; "--watch"].
Proof. by apply equals_form_is_value_form. Defined.

(** X11.  Tokens that do not start with [--] and follow no flag are
    ignored: a vector of such tokens leaves the configuration as it is, and
    the parsed configuration of a vector of positional arguments is empty. *)
Theorem positional_arguments_ignored (config : Config) (args : list string) :
  Forall (fun arg => Js.startsWith "--" arg = false) args ->
  parseArgs_loop config args = config /\ parseArgs args = ∅.
Proof.
  intros Hargs.
  assert (H : forall c, parseArgs_loop c args = c).
  { induction Hargs as [|arg args Harg _ IH]; [done|].
    intros c. by rewrite parseArgs_loop_skip. }
  split; apply H.
Qed.

Lemma positional_arguments_ignored_witness :
  parseArgs ["build"; "-h"; "src/index.html"; "-o=dist"] = ∅.
Proof.
  by destruct (positional_arguments_ignored ∅ ["build"; "-h"; "src/index.html"; "-o=dist"])
    as [_ H]; [repeat constructor|].
Defined.

(** X12.  The last token of the vector, when it is a flag, is never taken
    for a value: in the parsed configuration of a vector of plain tokens
    (none spells [__proto__] or [.length], where the setters of the runtime
    take over from the assignment), [--no-<key>] at the end leaves the key
    [false], and any other flag without [=] at the end leaves its key
    [true]. *)
Theorem trailing_flag_is_boolean (pre : list string) (flag : string) :
  Forall (fun arg => plain_token arg = true) (pre ++ [flag]) ->
  Js.startsWith "--" flag = true ->
  (Js.startsWith "--no-" flag = true ->
   parseArgs (pre ++ [flag]) !! toCamelCase (Js.slice 5 flag) = Some (VBool false))
  /\ (Js.startsWith "--no-" flag = false -> Js.includes "=" flag = false ->
      parseArgs (pre ++ [flag]) !! toCamelCase (Js.slice 2 flag) = Some (VBool true)).
Proof.
  intros _ Hflag. unfold parseArgs.
  destruct (parseArgs_loop_reaches pre flag [] Hflag ∅) as [config ->].
  split.
  - intros Hno. rewrite parseArgs_loop_negated by done. apply lookup_insert_eq.
  - intros Hno Heq. rewrite parseArgs_loop_standalone by done. apply lookup_insert_eq.
Qed.

Lemma trailing_flag_is_boolean_witness :
  parseArgs (["--outdir"; "build"; "--target"] ++ ["--source-map"]) !! "sourceMap"
  = Some (VBool true).
Proof.
  destruct (trailing_flag_is_boolean ["--outdir"; "build"; "--target"] "--source-map")
    as [_ H]; [by repeat constructor|reflexivity|].
  by apply H.
Defined.

(** ** Invariants of the parsed configuration *)

Lemma size_insert_le (config : Config) (key : string) (v : JsValue) :
  size (<[key := v]> config) <= S (size config).
Proof. rewrite map_size_insert. destruct (config !! key); cbn; lia. Qed.

Lemma flag_write_size (arg : string) (config config' : Config) :
  flag_write arg config config' -> size config' <= S (size config).
Proof.
  assert (Hassign : forall key value, size (assign config key value) <= S (size config)).
  { intros key value.
    destruct (assign_cases config key value)
      as [->|[[_ ->]|(_ & parentKey & childKey & parent & _ & _ & _ & _ & _ & ->)]];
      [lia| |]; apply size_insert_le. }
  intros [| | |value]; auto using size_insert_le.
Qed.

Lemma parseArgs_loop_size (args : list string) :
  forall config,
    size (parseArgs_loop config args)
    <= size config + length (List.filter (Js.startsWith "--") args).
Proof.
  remember (length args) as n eqn:Hn. revert args Hn.
  induction (lt_wf n) as [n _ IH]. intros args -> config.
  destruct args as [|arg rest]; [cbn; lia|].
  destruct (parseArgs_loop_turn config arg rest)
    as (config' & rest' & -> & Hrest & Hconfig).
  assert (Hargs : length rest' < length (arg :: rest)
                  /\ length (List.filter (Js.startsWith "--") rest')
                     = length (List.filter (Js.startsWith "--") rest)).
  { destruct Hrest as [->|(value & -> & Hvalue)]; cbn; [lia|]. rewrite Hvalue. lia. }
  destruct Hargs as [Hlt Hcount].
  specialize (IH (length rest') Hlt rest' eq_refl config').
  cbn [List.filter]. destruct Hconfig as [->|[Hflag Hwrite]].
  - destruct (Js.startsWith "--" arg); cbn; lia.
  - rewrite Hflag. apply flag_write_size in Hwrite. cbn. lia.
Qed.

(** X13.  Every flag adds one key at most: the parsed configuration has no
    more keys than the vector has tokens that start with [--]. *)
Theorem parsed_config_size (args : list string) :
  size (parseArgs args) <= length (List.filter (Js.startsWith "--") args).
Proof.
  pose proof (parseArgs_loop_size args ∅) as H. by rewrite map_size_empty in H.
Qed.

Lemma has_kebab_prefix (p r : string) :
  has_kebab (p +:+ r) = false -> has_kebab p = false.
Proof.
  induction p as [|c p IH]; [done|]. rewrite JsFacts.append_cons. cbn [has_kebab].
  intros [Hhead Hrest]%orb_false_elim. rewrite (IH Hrest), orb_false_r.
  destruct p as [|d p]; [apply andb_false_r|]. by rewrite JsFacts.append_cons in Hhead.
Qed.

Lemma toCamelCase_normal (s : string) : has_kebab (toCamelCase s) = false.
Proof. by apply (has_kebab_toCamelCase_bounded (String.length s)). Qed.

Lemma parent_key_normal (key : string) :
  has_kebab (item 0 (Js.split "." (toCamelCase key))) = false.
Proof.
  destruct (Js.includes "." (toCamelCase key)) eqn:Hdot.
  - destruct (JsFacts.split_sep "." _ Hdot) as [r Hr].
    apply (has_kebab_prefix _ (String "." r)). rewrite <- Hr. apply toCamelCase_normal.
  - rewrite (JsFacts.split_no_sep "." _ Hdot). apply toCamelCase_normal.
Qed.

(** X14.  Every key of the parsed configuration is in normal form: none
    has a hyphen followed by a lower-case letter, so none is changed by the
    normalization. *)
Theorem parsed_keys_normalized (args : list string) (key : string) :
  is_Some (parseArgs args !! key) ->
  has_kebab key = false /\ toCamelCase key = key.
Proof.
  intros Hkey.
  enough (H : has_kebab key = false) by (split; [done|by apply toCamelCase_fixed]).
  revert key Hkey.
  apply (parseArgs_loop_invariant
           (fun c : Config => forall key, is_Some (c !! key) -> has_kebab key = false)).
  - intros arg config config' _ _ Hwrite Hconfig key.
    assert (Hinsert : forall k v, has_kebab k = false ->
                                  is_Some (<[k := v]> config !! key) -> has_kebab key = false).
    { intros k v Hk. rewrite lookup_insert. case_decide; [by subst|apply Hconfig]. }
    assert (Hassign : forall raw value,
               is_Some (assign config raw value !! key) -> has_kebab key = false).
    { intros raw value.
      destruct (assign_cases config raw value)
        as [->|[[_ ->]|(_ & parentKey & childKey & parent & -> & _ & _ & _ & _ & ->)]].
      - apply Hconfig.
      - apply Hinsert, toCamelCase_normal.
      - apply Hinsert, parent_key_normal. }
    destruct Hwrite as [| | |value];
      [apply Hinsert, toCamelCase_normal|apply Hinsert, toCamelCase_normal
      |apply Hassign|apply Hassign].
  - intros key [v Hv]. by rewrite lookup_empty in Hv.
Qed.

Lemma parsed_keys_normalized_witness :
  has_kebab "sourceMap" = false /\ toCamelCase "sourceMap" = "sourceMap".
Proof.
  apply (parsed_keys_normalized ["--source-map=linked"] "sourceMap"). by eexists.
Defined.

Lemma leaf_shallow (v : JsValue) : leaf v -> shallow v.
Proof. destruct v; cbn; try done. intros ->. apply map_Forall_empty. Qed.

(** X15.  The parsed configuration is two levels deep at most: a value is
    a boolean, a number, a string, or a nested map (or a list) whose entries
    are booleans, numbers, strings and plain lists.  A dotted key never
    builds a map inside a map. *)
Theorem parsed_config_shallow (args : list string) :
  map_Forall (fun _ v => shallow v) (parseArgs args).
Proof.
  apply (parseArgs_loop_invariant (map_Forall (fun _ v => shallow v))).
  - intros arg config config' _ _ Hwrite Hconfig.
    assert (Hassign : forall raw value,
               map_Forall (fun _ v => shallow v) (assign config raw value)).
    { intros raw value.
      destruct (assign_cases config raw value)
        as [->|[[_ ->]|(_ & parentKey & childKey & parent & _ & _ & _ & _ & Hparent & ->)]].
      - done.
      - apply map_Forall_insert_2; [|done]. apply leaf_shallow, parseValue_leaf.
      - apply map_Forall_insert_2; [|done].
        assert (Hshallow : shallow parent).
        { subst parent. destruct (config !! parentKey) as [existing|] eqn:Hexisting;
            [|apply map_Forall_empty].
          destruct (is_object (Some existing)); [|apply map_Forall_empty].
          by apply (Hconfig parentKey). }
        destruct parent; cbn in *; try done;
          apply map_Forall_insert_2; auto using parseValue_leaf. }
    destruct Hwrite as [| | |value]; auto; by apply map_Forall_insert_2.
  - apply map_Forall_empty.
Qed.

(** ** Dotted keys *)

Lemma includes_char_app (sep : ascii) (a b : string) :
  Js.includes (String sep EmptyString) (a +:+ b)
  = Js.includes (String sep EmptyString) a || Js.includes (String sep EmptyString) b.
Proof.
  induction a as [|c a IH]; [done|].
  by rewrite JsFacts.append_cons, !JsFacts.includes_char_cons, IH, orb_assoc.
Qed.

Lemma not_negated_app (key : string) (sep : ascii) (rest : string) :
  sep <> "n"%char -> sep <> "o"%char -> sep <> "-"%char ->
  Js.startsWith "no-" key = false ->
  Js.startsWith "no-" (key +:+ String sep rest) = false.
Proof.
  intros Hn Ho Hh. unfold Js.startsWith.
  destruct key as [|a [|b [|c key]]];
    rewrite ?JsFacts.append_cons, ?JsFacts.append_nil; cbn [String.prefix];
    repeat (destruct (ascii_dec _ _)); try done; try congruence.
  by destruct key.
Qed.

Lemma includes_dot_toCamelCase_bounded (n : nat) (s : string) :
  String.length s <= n ->
  Js.includes "." s = false -> Js.includes "." (toCamelCase s) = false.
Proof.
  revert s. induction n as [|n IH]; intros s Hn.
  { destruct s; [done|cbn in Hn; lia]. }
  destruct s as [|c s]; [done|]. cbn [String.length] in Hn.
  rewrite JsFacts.includes_char_cons. intros [Hc Hs]%orb_false_elim.
  destruct (ascii_dec c "-") as [->|Hne].
  - destruct s as [|d s]; [done|]. cbn [String.length] in Hn.
    destruct (Js.is_lower d) eqn:Hd.
    + rewrite toCamelCase_hyphen_lower by done.
      rewrite JsFacts.includes_char_cons in Hs. apply orb_false_elim in Hs as [_ Hs].
      rewrite JsFacts.includes_char_cons, IH by (done || lia).
      pose proof (toUpperCase_upper d Hd) as Hup.
      destruct (Js.toUpperCase d) as [[] [] [] [] [] [] [] []]; done.
    + rewrite toCamelCase_hyphen_other by done.
      by rewrite JsFacts.includes_char_cons, IH by (done || cbn; lia).
  - rewrite toCamelCase_other by done.
    by rewrite JsFacts.includes_char_cons, Hc, IH by (done || lia).
Qed.

Lemma includes_dot_toCamelCase (s : string) :
  Js.includes "." s = false -> Js.includes "." (toCamelCase s) = false.
Proof. by apply (includes_dot_toCamelCase_bounded (String.length s)). Qed.

(** The pieces of a normalized dotted key. *)
Lemma split_dotted_key (parent tail : string) :
  Js.includes "." parent = false ->
  Js.includes "." (toCamelCase (parent +:+ String "." tail)) = true
  /\ Js.split "." (toCamelCase (parent +:+ String "." tail))
     = toCamelCase parent :: Js.split "." (toCamelCase tail).
Proof.
  intros Hparent. rewrite (toCamelCase_dot_bounded (String.length parent)) by done.
  split; [apply (includes_app_sep ".")|].
  by rewrite split_app_sep by (by apply includes_dot_toCamelCase).
Qed.

(** X16.  Only the first two segments of a dotted key count: whatever
    follows the child, [--parent.child.more=value] does what
    [--parent.child=value] does. *)
Theorem dotted_key_third_segment_ignored (config : Config)
    (parent child more value : string) (rest : list string) :
  Js.startsWith "no-" parent = false ->
  Js.includes "." parent = false -> Js.includes "." child = false ->
  Js.includes "=" parent = false -> Js.includes "=" child = false ->
  Js.includes "=" more = false ->
  parseArgs_loop config
    (("--" +:+ (parent +:+ String "." (child +:+ String "." more)) +:+ String "=" value) :: rest)
  = parseArgs_loop config
      (("--" +:+ (parent +:+ String "." child) +:+ String "=" value) :: rest).
Proof.
  intros Hno Hp Hc Hpe Hce Hme.
  rewrite !parseArgs_loop_equals_form;
    rewrite ?includes_char_app, ?JsFacts.includes_char_cons, ?includes_char_app,
      ?JsFacts.includes_char_cons, ?Hpe, ?Hce, ?Hme; try done;
    try (by apply not_negated_app).
  f_equal. unfold assign.
  destruct (split_dotted_key parent (child +:+ String "." more) Hp) as [-> ->].
  destruct (split_dotted_key parent child Hp) as [-> ->].
  destruct (split_dotted_key child more Hc) as [_ ->].
  by rewrite (JsFacts.split_no_sep "." _ (includes_dot_toCamelCase child Hc)).
Qed.

Lemma dotted_key_third_segment_ignored_witness :
  parseArgs_loop ∅ [("--" +:+ ("define" +:+ String "." ("VERSION" +:+ String "." "major"))
                          +:+ String "=" "1")]
  = parseArgs_loop ∅ [("--" +:+ ("define" +:+ String "." "VERSION") +:+ String "=" "1")].
Proof. by apply dotted_key_third_segment_ignored. Defined.

(** X17.  A dotted key whose parent or child is empty stores nothing:
    [--.child=value] and [--parent.=value] leave the configuration as it
    is, and [--.child value] does so too and still takes the value. *)
Theorem dotted_key_empty_segment_dropped (config : Config) (name value : string)
    (rest : list string) :
  Js.includes "=" name = false -> Js.includes "." name = false ->
  Js.startsWith "no-" name = false -> Js.startsWith "--" value = false ->
  parseArgs_loop config (("--" +:+ String "." name +:+ String "=" value) :: rest)
  = parseArgs_loop config rest
  /\ parseArgs_loop config (("--" +:+ (name +:+ ".") +:+ String "=" value) :: rest)
     = parseArgs_loop config rest
  /\ parseArgs_loop config (("--" +:+ String "." name) :: value :: rest)
     = parseArgs_loop config rest.
Proof.
  intros Heq Hdot Hno Hvalue.
  assert (Hfirst : forall v, assign config (String "." name) v = config).
  { intros v. unfold assign. rewrite toCamelCase_other by done.
    rewrite JsFacts.includes_char_cons. cbn [orb Ascii.eqb]. cbn [Js.split].
    rewrite Ascii.eqb_refl. done. }
  assert (Hlast : forall v, assign config (name +:+ ".") v = config).
  { intros v. unfold assign.
    destruct (split_dotted_key name EmptyString Hdot) as [-> ->].
    cbn [toCamelCase Js.split]. unfold item. cbn.
    by rewrite andb_false_r. }
  split; [|split].
  - rewrite (parseArgs_loop_equals_form config (String "." name));
      [by rewrite Hfirst|done|].
    by rewrite JsFacts.includes_char_cons.
  - rewrite (parseArgs_loop_equals_form config (name +:+ "."));
      [by rewrite Hlast|by apply not_negated_app|].
    by rewrite includes_char_app, Heq.
  - rewrite (parseArgs_loop_value_form config (String "." name));
      [by rewrite Hfirst|done| |done].
    by rewrite JsFacts.includes_char_cons.
Qed.

Lemma dotted_key_empty_segment_dropped_witness :
  parseArgs_loop ∅ [("--" +:+ String "." "x" +:+ String "=" "1"); "--minify"]
  = parseArgs_loop ∅ ["--minify"].
Proof.
  by destruct (dotted_key_empty_segment_dropped ∅ "x" "1" ["--minify"]) as [H _].
Defined.

(** ** Sizes that print exactly, and sizes at the edge of a unit *)

Lemma formatFileSize_render (bytes : N) :
  (bytes < 2 ^ 53)%N ->
  formatFileSize bytes
  = (let unitIndex :=
       if (bytes <? 1024)%N then 0
       else if (bytes <? 1024 ^ 2)%N then 1
       else if (bytes <? 1024 ^ 3)%N then 2 else 3 in
     let hundredths := ((200 * bytes + 1024 ^ N.of_nat unitIndex)
                        / (2 * 1024 ^ N.of_nat unitIndex))%N in
     pretty (hundredths / 100)%N
     +:+ "." +:+ pretty ((hundredths / 10) mod 10)%N +:+ pretty (hundredths mod 10)%N
     +:+ " " +:+ item unitIndex units).
Proof.
  intros Hbound. unfold formatFileSize. rewrite scale_bytes.
  change (2 ^ 53)%N with 9007199254740992%N in Hbound.
  destruct (bytes <? 1024)%N; [|destruct (bytes <? 1024 ^ 2)%N;
                                 [|destruct (bytes <? 1024 ^ 3)%N]];
    cbv zeta;
    (rewrite toFixed2_digits;
     [by rewrite !JsFacts.app_assoc'
     |change (10 ^ 21)%N with 1000000000000000000000%N; lia]).
Qed.

(** X18.  A whole number of units prints exactly: [n] bytes below 1024,
    and [n] times 1024, 1024^2 or 1024^3 bytes with [n] from 1 up (below
    1024 under GB, and the byte count below 2^53 for GB), give the digits
    of [n], [.00] and the unit. *)
Theorem formatFileSize_whole_units (n : N) (unitIndex : nat) :
  (n * 1024 ^ N.of_nat unitIndex < 2 ^ 53)%N ->
  unitIndex <= 3 ->
  unitIndex = 0 \/ (0 < n)%N ->
  unitIndex = 3 \/ (n < 1024)%N ->
  formatFileSize (n * 1024 ^ N.of_nat unitIndex)
  = pretty n +:+ ".00 " +:+ item unitIndex units.
Proof.
  intros Hbound Hk Hlow Hhigh. rewrite formatFileSize_render by done.
  assert (Hcases : unitIndex = 0 \/ unitIndex = 1 \/ unitIndex = 2 \/ unitIndex = 3) by lia.
  assert (Hround : forall d : N, (0 < d)%N ->
             ((200 * (n * d) + d) / (2 * d) = 100 * n)%N).
  { intros d Hd. replace (200 * (n * d) + d)%N with (d + (100 * n) * (2 * d))%N by lia.
    rewrite N.div_add by lia. rewrite (N.div_small d (2 * d)) by lia. lia. }
  assert (Hdigits : ((100 * n) / 100 = n /\ ((100 * n) / 10) mod 10 = 0
                     /\ (100 * n) mod 10 = 0)%N).
  { split; [|split].
    - rewrite N.mul_comm. by apply N.div_mul.
    - replace (100 * n)%N with ((10 * n) * 10)%N by lia. rewrite N.div_mul by done.
      rewrite N.mul_comm. by apply N.Div0.mod_mul.
    - replace (100 * n)%N with ((10 * n) * 10)%N by lia. by apply N.Div0.mod_mul. }
  destruct Hdigits as (Hd1 & Hd2 & Hd3).
  destruct Hcases as [-> | [-> | [-> | ->]]].
  - change (1024 ^ N.of_nat 0)%N with 1%N. rewrite N.mul_1_r.
    destruct (N.ltb_spec n 1024); [|lia]. cbv zeta.
    change (1024 ^ N.of_nat 0)%N with 1%N.
    rewrite <- (N.mul_1_r n) at 1 2 3. rewrite Hround by lia.
    by rewrite Hd1, Hd2, Hd3.
  - change (1024 ^ N.of_nat 1)%N with 1024%N. change (1024 ^ 2)%N with 1048576%N.
    destruct (N.ltb_spec (n * 1024) 1024); [lia|].
    destruct (N.ltb_spec (n * 1024) 1048576); [|lia]. cbv zeta.
    change (1024 ^ N.of_nat 1)%N with 1024%N. rewrite Hround by lia.
    by rewrite Hd1, Hd2, Hd3.
  - change (1024 ^ N.of_nat 2)%N with 1048576%N.
    change (1024 ^ 2)%N with 1048576%N. change (1024 ^ 3)%N with 1073741824%N.
    destruct (N.ltb_spec (n * 1048576) 1024); [lia|].
    destruct (N.ltb_spec (n * 1048576) 1048576); [lia|].
    destruct (N.ltb_spec (n * 1048576) 1073741824); [|lia]. cbv zeta.
    change (1024 ^ N.of_nat 2)%N with 1048576%N. rewrite Hround by lia.
    by rewrite Hd1, Hd2, Hd3.
  - change (1024 ^ N.of_nat 3)%N with 1073741824%N.
    change (1024 ^ 2)%N with 1048576%N. change (1024 ^ 3)%N with 1073741824%N.
    destruct (N.ltb_spec (n * 1073741824) 1024); [lia|].
    destruct (N.ltb_spec (n * 1073741824) 1048576); [lia|].
    destruct (N.ltb_spec (n * 1073741824) 1073741824); [lia|]. cbv zeta.
    change (1024 ^ N.of_nat 3)%N with 1073741824%N. rewrite Hround by lia.
    by rewrite Hd1, Hd2, Hd3.
Qed.

Lemma formatFileSize_whole_units_witness :
  formatFileSize (5 * 1024 ^ N.of_nat 3) = pretty 5%N +:+ ".00 " +:+ item 3 units.
Proof. apply formatFileSize_whole_units; [reflexivity|lia..]. Defined.

(** X19.  The unit is chosen before the rounding: a size within half a
    hundredth of the next unit keeps its unit and prints as [1024.00] of
    it, not as [1.00] of the next one. *)
Theorem formatFileSize_edge_of_unit (bytes : N) :
  ((1048571 <= bytes < 1048576)%N -> formatFileSize bytes = "1024.00 KB")
  /\ ((1073736582 <= bytes < 1073741824)%N -> formatFileSize bytes = "1024.00 MB").
Proof.
  split; intros [Hlow Hhigh];
    rewrite formatFileSize_render
      by (change (2 ^ 53)%N with 9007199254740992%N; lia).
  - change (1024 ^ 2)%N with 1048576%N.
    destruct (N.ltb_spec bytes 1024); [lia|].
    destruct (N.ltb_spec bytes 1048576); [|lia]. cbv zeta.
    change (1024 ^ N.of_nat 1)%N with 1024%N.
    assert (((200 * bytes + 1024) / (2 * 1024) = 102400)%N) as ->; [|done].
    symmetry. apply (N.div_unique _ _ _ (200 * bytes + 1024 - 102400 * 2048)); lia.
  - change (1024 ^ 2)%N with 1048576%N. change (1024 ^ 3)%N with 1073741824%N.
    destruct (N.ltb_spec bytes 1024); [lia|].
    destruct (N.ltb_spec bytes 1048576); [lia|].
    destruct (N.ltb_spec bytes 1073741824); [|lia]. cbv zeta.
    change (1024 ^ N.of_nat 2)%N with 1048576%N.
    assert (((200 * bytes + 1048576) / (2 * 1048576) = 102400)%N) as ->; [|done].
    symmetry. apply (N.div_unique _ _ _ (200 * bytes + 1048576 - 102400 * 2097152)); lia.
Qed.

Lemma formatFileSize_edge_of_unit_witness :
  formatFileSize 1048575 = "1024.00 KB".
Proof.
  destruct (formatFileSize_edge_of_unit 1048575) as [H _]. apply H. lia.
Defined.

(** ** Runs of the build program *)

Lemma cleanPrevious_unreadable {Err : Type} (env : Env Err) (outdir : string)
    (error : Err) :
  fs_exists env outdir = inl error ->
  cleanPrevious env outdir = ([FsExists outdir], inl (PlatformError error)).
Proof. intros H. unfold cleanPrevious. cbn. by rewrite H. Qed.

(** X20.  A run that cleans and builds without failure returns what the
    bundler returned and ends by printing the table: one row for each
    artifact, in the order of the artifacts, with its path relative to the
    working directory, its kind, and its size formatted.  No error line is
    printed. *)
Theorem build_success_report {Err : Type} (env : Env Err) (args : list string)
    (result : BuildOutput) :
  let cliConfig := parseArgs args in
  let outdir := resolveOutdir env cliConfig in
  let request := buildRequest (findEntrypoints env) outdir cliConfig in
  exit (cleanPrevious env outdir) = inr tt ->
  bun_build env request = inr result ->
  exists before rows,
    runMain env args
    = (before ++ [BunBuild request; ConsoleLog MsgBuildOutput; ConsoleTable rows;
                  ConsoleLog MsgCompleted],
       inr result)
    /\ buildProgram env args = runMain env args
    /\ length rows = length (outputs result)
    /\ forall i output,
         outputs result !! i = Some output ->
         rows !! i
         = Some {| row_File := path_relative env (cwd env) (artifact_path output);
                   row_Type := artifact_kind output;
                   row_Size := formatFileSize (artifact_size output) |}.
Proof.
  intros cliConfig outdir request Hclean Hbuild.
  pose proof (buildProgram_clean_success env args Hclean) as Hrun.
  fold cliConfig outdir request in Hrun. rewrite Hbuild in Hrun.
  eexists (ConsoleLog MsgStarting :: trace (cleanPrevious env outdir)
           ++ [GlobScan; ConsoleLog (MsgFound (length (findEntrypoints env)))]),
          (outputTable env result).
  assert (Hmain : runMain env args = buildProgram env args).
  { unfold runMain. by rewrite Hrun. }
  split; [|split; [done|split]].
  - rewrite Hmain, Hrun. f_equal. cbn [app]. by rewrite <- !app_assoc.
  - unfold outputTable. by rewrite length_map.
  - intros i output Hi. unfold outputTable. by rewrite list_lookup_fmap, Hi.
Qed.

Lemma build_success_report_witness :
  exists before rows,
    runMain (sampleEnv true (inr tt)
               (inr {| outputs := [ {| artifact_path := "/work/dist/index.js";
                                       artifact_kind := "chunk";
                                       artifact_size := 1536 |} ] |}))
            ["--outdir"; "dist"]
    = (before ++ [BunBuild (buildRequest ["/work/src/index.html"; "/work/src/pages/about.html"]
                                         "dist" {[ "outdir" := VStr "dist" ]});
                  ConsoleLog MsgBuildOutput; ConsoleTable rows; ConsoleLog MsgCompleted],
       inr {| outputs := [ {| artifact_path := "/work/dist/index.js";
                              artifact_kind := "chunk";
                              artifact_size := 1536 |} ] |})
    /\ rows !! 0 = Some {| row_File := "dist/index.js"; row_Type := "chunk";
                           row_Size := "1.50 KB" |}.
Proof.
  destruct (build_success_report
              (sampleEnv true (inr tt)
                 (inr {| outputs := [ {| artifact_path := "/work/dist/index.js";
                                         artifact_kind := "chunk";
                                         artifact_size := 1536 |} ] |}))
              ["--outdir"; "dist"] _ eq_refl eq_refl)
    as (before & rows & Hrun & _ & _ & Hrows).
  exists before, rows. split; [exact Hrun|]. exact (Hrows 0 _ eq_refl).
Defined.

(** X21.  When the existence check itself fails, the run stops there: the
    failure of the file system goes up as it is, not wrapped in a
    [CleanError]; nothing is removed, scanned or built, and neither handler
    prints a line for it. *)
Theorem exists_failure_unwrapped {Err : Type} (env : Env Err) (args : list string)
    (error : Err) :
  let outdir := resolveOutdir env (parseArgs args) in
  fs_exists env outdir = inl error ->
  buildProgram env args
  = ([ConsoleLog MsgStarting; FsExists outdir], inl (PlatformError error))
  /\ runMain env args = buildProgram env args.
Proof.
  intros outdir Hexists.
  pose proof (cleanPrevious_unreadable env outdir error Hexists) as Hclean.
  assert (Hrun : buildProgram env args
                 = ([ConsoleLog MsgStarting; FsExists outdir], inl (PlatformError error))).
  { rewrite (buildProgram_clean_failure env args (PlatformError error)).
    - fold outdir. by rewrite Hclean.
    - fold outdir. by rewrite Hclean. }
  split; [done|]. unfold runMain. by rewrite Hrun.
Qed.

Lemma exists_failure_unwrapped_witness :
  runMain unreadableEnv []
  = ([ConsoleLog MsgStarting; FsExists "/work/dist"], inl (PlatformError "EIO")).
Proof.
  destruct (exists_failure_unwrapped unreadableEnv [] "EIO" eq_refl) as [Hrun ->].
  exact Hrun.
Defined.

(** The runs of the program, one for each way the collaborators answer. *)
Lemma buildProgram_cases {Err : Type} (env : Env Err) (args : list string) :
  let cliConfig := parseArgs args in
  let outdir := resolveOutdir env cliConfig in
  let request := buildRequest (findEntrypoints env) outdir cliConfig in
  let found := [GlobScan; ConsoleLog (MsgFound (length (findEntrypoints env)));
                BunBuild request] in
  (exists error, fs_exists env outdir = inl error
     /\ trace (buildProgram env args) = [ConsoleLog MsgStarting; FsExists outdir])
  \/ (fs_exists env outdir = inr false
      /\ exists after, trace (buildProgram env args)
                       = [ConsoleLog MsgStarting; FsExists outdir] ++ found ++ after
                       /\ Forall (fun event => is_removal event || is_build_call event = false) after)
  \/ (fs_exists env outdir = inr true
      /\ trace (buildProgram env args)
         = [ConsoleLog MsgStarting; FsExists outdir; ConsoleLog (MsgCleaning outdir);
            FsRemove outdir])
  \/ (fs_exists env outdir = inr true
      /\ exists after, trace (buildProgram env args)
                       = [ConsoleLog MsgStarting; FsExists outdir; ConsoleLog (MsgCleaning outdir);
                          FsRemove outdir] ++ found ++ after
                       /\ Forall (fun event => is_removal event || is_build_call event = false) after).
Proof.
  intros cliConfig outdir request found.
  assert (Hafter : forall clean, exit (cleanPrevious env outdir) = inr tt ->
             trace (cleanPrevious env outdir) = clean ->
             exists after, trace (buildProgram env args)
                           = (ConsoleLog MsgStarting :: clean) ++ found ++ after
                           /\ Forall (fun event => is_removal event || is_build_call event = false) after).
  { intros clean Hexit Htrace.
    rewrite (buildProgram_clean_success env args Hexit).
    fold cliConfig outdir request. rewrite Htrace.
    destruct (bun_build env request) as [error|result]; cbn [trace fst].
    - exists []. split; [|done]. subst found. cbn [app]. by rewrite ?app_nil_r.
    - eexists. split; [subst found; cbn [app]; by rewrite <- !app_assoc|].
      by repeat constructor. }
  destruct (fs_exists env outdir) as [error|[]] eqn:Hexists.
  - left. exists error. split; [done|].
    rewrite (buildProgram_clean_failure env args (PlatformError error));
      fold cliConfig outdir; by rewrite (cleanPrevious_unreadable env outdir error).
  - destruct (fs_remove env outdir) as [error|[]] eqn:Hremove.
    + right; right; left. split; [done|].
      pose proof (cleanPrevious_failed env outdir error Hexists Hremove) as Hclean.
      rewrite (buildProgram_clean_failure env args
                 (CleanError ("Failed to clean directory: " +:+ outdir)
                    {| clean_directory := outdir; clean_originalError := error |}));
        fold cliConfig outdir; by rewrite Hclean.
    + right; right; right. split; [done|].
      pose proof (cleanPrevious_removed env outdir Hexists Hremove) as Hclean.
      apply Hafter; by rewrite Hclean.
  - right; left. split; [done|].
    pose proof (cleanPrevious_absent env outdir Hexists) as Hclean.
    apply Hafter; by rewrite Hclean.
Qed.

(** X22.  A run removes one directory at most, the output directory, and
    only after the check has answered that it exists; it calls the bundler
    once at most, and never after a failure to clean. *)
Theorem removal_guarded_build_once {Err : Type} (env : Env Err) (args : list string) :
  let outdir := resolveOutdir env (parseArgs args) in
  let events := trace (buildProgram env args) in
  (forall path, FsRemove path ∈ events -> path = outdir /\ fs_exists env outdir = inr true)
  /\ length (List.filter is_removal events) <= 1
  /\ length (List.filter is_build_call events) <= 1
  /\ (forall failure,
        exit (cleanPrevious env outdir) = inl failure ->
        List.filter is_build_call events = []).
Proof.
  intros outdir events.
  assert (Hfilter : forall (f : Event -> bool) after,
             Forall (fun event => is_removal event || is_build_call event = false) after ->
             (forall event, f event = true -> is_removal event || is_build_call event = true) ->
             List.filter f after = []).
  { intros f after Hall Hf. induction Hall as [|event after Hevent _ IH]; [done|].
    cbn [List.filter]. destruct (f event) eqn:Hfe; [|done].
    by rewrite (Hf event Hfe) in Hevent. }
  assert (Hmember : forall path after,
             Forall (fun event => is_removal event || is_build_call event = false) after ->
             FsRemove path ∉ after).
  { intros path after Hall Hin. rewrite Forall_forall in Hall.
    by specialize (Hall _ Hin). }
  destruct (buildProgram_cases env args)
    as [(error & Hexists & Htrace)|[(Hexists & after & Htrace & Hafter)
       |[(Hexists & Htrace)|(Hexists & after & Htrace & Hafter)]]];
    fold outdir events in Hexists, Htrace; rewrite Htrace.
  - split; [|split; [|split]]; [|cbn; lia|cbn; lia|done].
    intros path. rewrite !elem_of_cons, elem_of_nil. intros H; by decompose [or] H.
  - split; [|split; [|split]].
    + intros path. cbn [app]. rewrite !elem_of_cons.
      intros H. decompose [or] H; try done. by destruct (Hmember path after Hafter).
    + cbn. rewrite (Hfilter is_removal after) by (done || by intros []). cbn. lia.
    + cbn. rewrite (Hfilter is_build_call after)
        by (done || intros []; cbn; by rewrite ?orb_true_r). cbn. lia.
    + intros failure. unfold exit. by rewrite (cleanPrevious_absent env outdir Hexists).
  - split; [|split; [|split]]; [|cbn; lia|cbn; lia|done].
    intros path. rewrite !elem_of_cons, elem_of_nil.
    intros H; decompose [or] H; try done.
    match goal with Heq : FsRemove _ = FsRemove _ |- _ => by injection Heq as -> end.
  - split; [|split; [|split]].
    + intros path. cbn [app]. rewrite !elem_of_cons.
      intros H. decompose [or] H; try done;
        try (by destruct (Hmember path after Hafter)).
      match goal with Heq : FsRemove _ = FsRemove _ |- _ => by injection Heq as -> end.
    + cbn. rewrite (Hfilter is_removal after) by (done || by intros []). cbn. lia.
    + cbn. rewrite (Hfilter is_build_call after)
        by (done || intros []; cbn; by rewrite ?orb_true_r). cbn. lia.
    + intros failure Hfail. exfalso.
      destruct (fs_remove env outdir) as [error|[]] eqn:Hremove.
      * pose proof (cleanPrevious_failed env outdir error Hexists Hremove) as Hclean.
        pose proof (buildProgram_clean_failure env args _ Hfail) as Hrun.
        fold outdir in Hrun. unfold events in Htrace.
        rewrite Hrun, Hclean in Htrace. cbn in Htrace.
        apply (f_equal length) in Htrace. cbn in Htrace. lia.
      * unfold exit in Hfail. by rewrite (cleanPrevious_removed env outdir Hexists Hremove) in Hfail.
Qed.

Lemma prefix_app_l (p a b : string) :
  String.prefix p a = true -> String.prefix p (a +:+ b) = true.
Proof.
  revert a. induction p as [|c p IH]; intros a.
  - intros _. by destruct (a +:+ b).
  - destruct a as [|d a]; [done|]. rewrite JsFacts.append_cons. cbn [String.prefix].
    destruct (ascii_dec c d); [apply IH|done].
Qed.

Lemma includes_app_l (p a b : string) :
  Js.includes p a = true -> Js.includes p (a +:+ b) = true.
Proof.
  induction a as [|c a IH].
  - cbn [Js.includes]. rewrite orb_false_r. intros H.
    destruct p; [|done]. rewrite JsFacts.append_nil. by destruct b.
  - cbn [Js.includes]. rewrite JsFacts.append_cons. cbn [Js.includes].
    intros [H|H]%orb_prop.
    + rewrite <- JsFacts.append_cons, (prefix_app_l _ _ _ H). done.
    + rewrite (IH H). apply orb_true_r.
Qed.

(** X23.  No entrypoint has [node_modules] anywhere in its absolute path.
    The test is made on the resolved path, so when the working directory
    itself lies under a [node_modules] directory every page is left out and
    no entrypoint is found. *)
Theorem entrypoints_exclude_node_modules {Err : Type} (env : Env Err) :
  Forall (fun entrypoint => Js.includes "node_modules" entrypoint = false)
         (findEntrypoints env)
  /\ ((forall a, exists below, path_resolve env "src" a = cwd env +:+ below) ->
      Js.includes "node_modules" (cwd env) = true ->
      findEntrypoints env = []).
Proof.
  unfold findEntrypoints. split.
  - apply Forall_forall. intros entrypoint Hin. apply list_elem_of_In in Hin.
    apply filter_In in Hin as [_ Hin]. by apply negb_true_iff.
  - intros Hresolve Hcwd. induction (glob_scan env) as [|a scan IH]; [done|].
    cbn [map List.filter]. destruct (Hresolve a) as [below ->].
    by rewrite (includes_app_l _ _ below Hcwd).
Qed.

Lemma entrypoints_exclude_node_modules_witness : findEntrypoints vendoredEnv = [].
Proof.
  apply (proj2 (entrypoints_exclude_node_modules vendoredEnv)); [|reflexivity].
  intros a. by eexists.
Defined.

(** The one request of a run. *)
Lemma buildProgram_request {Err : Type} (env : Env Err) (args : list string)
    (request : Config) :
  BunBuild request ∈ trace (buildProgram env args) ->
  request = buildRequest (findEntrypoints env)
                         (resolveOutdir env (parseArgs args)) (parseArgs args).
Proof.
  destruct (buildProgram_trace env args) as (after & -> & Hafter).
  rewrite elem_of_cons, elem_of_app. intros [H|[H|H]]; [done| |].
  - apply cleanPrevious_trace in H. by decompose [or] H.
  - apply Hafter in H. destruct H as [H|[[m H]|[H|[rows H]]]]; congruence.
Qed.

(** X24.  When the command line, made of plain tokens (none spells
    [__proto__] or [.length], where the runtime reads and writes something
    else than the properties of the configuration), gives no [outdir], or
    gives one that is a string, the directory that is cleaned and the
    [outdir] of the build request are the same: the string as it was typed
    (it is not joined with the working directory), or [<cwd>/dist]. *)
Theorem outdir_agreement {Err : Type} (env : Env Err) (args : list string) :
  Forall (fun arg => plain_token arg = true) args ->
  (forall v, parseArgs args !! "outdir" = Some v -> exists s, v = VStr s) ->
  let outdir := resolveOutdir env (parseArgs args) in
  (forall s, parseArgs args !! "outdir" = Some (VStr s) -> outdir = s)
  /\ (parseArgs args !! "outdir" = None -> outdir = path_join env (cwd env) "dist")
  /\ (FsExists outdir ∈ trace (buildProgram env args))
  /\ (forall request, BunBuild request ∈ trace (buildProgram env args) ->
        request !! "outdir" = Some (VStr outdir)).
Proof.
  intros _ Hstring outdir. subst outdir. unfold resolveOutdir at 1 2.
  split; [by intros s ->|]. split; [by intros ->|]. split.
  - destruct (buildProgram_trace env args) as (after & -> & _).
    destruct (cleanPrevious_trace_head env (resolveOutdir env (parseArgs args))) as [rest ->].
    cbn [app]. rewrite !elem_of_cons. auto.
  - intros request ->%buildProgram_request. unfold buildRequest.
    destruct (parseArgs args !! "outdir") as [v|] eqn:Hv.
    + destruct (Hstring v eq_refl) as [s ->].
      rewrite (lookup_union_Some_l _ _ _ _ Hv). unfold resolveOutdir. by rewrite Hv.
    + by rewrite lookup_union_r.
Qed.

Lemma outdir_agreement_witness :
  FsExists "build" ∈ trace (buildProgram (sampleEnv false (inr tt) (inl "boom"))
                                         ["--outdir=build"]).
Proof.
  destruct (outdir_agreement (sampleEnv false (inr tt) (inl "boom")) ["--outdir=build"])
    as (_ & _ & H & _); [by repeat constructor| |exact H].
  intros v. vm_compute. intros [= <-]. by eexists.
Defined.

Lemma buildProgram_no_error_line {Err : Type} (env : Env Err) (args : list string) :
  List.filter is_error_line (trace (buildProgram env args)) = [].
Proof.
  assert (H : Forall (fun event => is_error_line event = false)
                     (trace (buildProgram env args))).
  { apply Forall_forall. intros event.
    destruct (buildProgram_trace env args) as (after & -> & Hafter).
    rewrite elem_of_cons, elem_of_app. intros [->|[H|H]]; [done| |].
    - apply cleanPrevious_trace in H. by decompose [or] H; subst.
    - apply Hafter in H. by destruct H as [->|[[m ->]|[->|[rows ->]]]]. }
  induction H as [|event events Hevent _ IH]; [done|].
  cbn [List.filter]. by rewrite Hevent.
Qed.

(** X25.  The handlers at the top report a failure once and pass it on: a
    run that ends with a [CleanError] or a [BuildError] prints one line on
    the error stream, with the message of the error, after everything else;
    any other run prints none.  The way the run ends is not changed. *)
Theorem failure_reported_once {Err : Type} (env : Env Err) (args : list string) :
  exit (runMain env args) = exit (buildProgram env args)
  /\ trace (runMain env args)
     = trace (buildProgram env args)
       ++ match exit (buildProgram env args) with
          | inl (CleanError message _) => [ConsoleError (MsgCleanFailed message)]
          | inl (BuildError message _) => [ConsoleError (MsgBuildFailed message)]
          | _ => []
          end
  /\ List.filter is_error_line (trace (runMain env args))
     = match exit (buildProgram env args) with
       | inl (CleanError message _) => [ConsoleError (MsgCleanFailed message)]
       | inl (BuildError message _) => [ConsoleError (MsgBuildFailed message)]
       | _ => []
       end.
Proof.
  pose proof (buildProgram_no_error_line env args) as Hnone.
  unfold runMain, exit, trace in *.
  destruct (buildProgram env args) as [events [[message cause|message cause|error]|result]];
    cbn in *; rewrite ?app_nil_r; repeat split; try done;
    by rewrite List.filter_app, Hnone.
Qed.

(** * The server *)

Lemma trimEnd_empty (s : string) :
  Js.trimEnd s = EmptyString -> forallb Js.is_space (list_ascii_of_string s) = true.
Proof.
  induction s as [|c s IH]; [done|]. cbn [Js.trimEnd list_ascii_of_string forallb].
  destruct (Js.is_space c); [|done]. cbn [andb].
  destruct (String.eqb_spec (Js.trimEnd s) EmptyString); [auto|done].
Qed.

Lemma trimStart_spaces (s : string) :
  forallb Js.is_space (list_ascii_of_string (Js.trimStart s)) = true ->
  forallb Js.is_space (list_ascii_of_string s) = true.
Proof.
  induction s as [|c s IH]; [done|]. cbn [Js.trimStart].
  destruct (Js.is_space c) eqn:Hc; [|done]. cbn. rewrite Hc. auto.
Qed.

Lemma trim_spaces (s : string) :
  forallb Js.is_space (list_ascii_of_string s) = true -> Js.trim s = EmptyString.
Proof.
  unfold Js.trim. induction s as [|c s IH]; [done|]. cbn.
  intros [Hc Hs]%andb_prop. rewrite Hc. auto.
Qed.

(** Blank names: the ones [trim] empties. *)
Lemma trim_empty_iff (s : string) :
  Js.trim s = EmptyString <-> forallb Js.is_space (list_ascii_of_string s) = true.
Proof.
  split; [|apply trim_spaces]. unfold Js.trim. intros H.
  by apply trimStart_spaces, trimEnd_empty.
Qed.

(** The two answers of the route. *)
Lemma handleHelloByName_cases (name : string) :
  Server.handleHelloByName name
  = if forallb Js.is_space (list_ascii_of_string name)
    then {| Server.response_status := 400;
            Server.response_body := [("error", "Name parameter is required")] |}
    else {| Server.response_status := 200;
            Server.response_body := [("message", "Hello, " +:+ name +:+ "!")] |}.
Proof.
  unfold Server.handleHelloByName, Server.getHelloByName.
  destruct (forallb Js.is_space (list_ascii_of_string name)) eqn:Hblank.
  - apply trim_spaces in Hblank. rewrite Hblank. cbn. by rewrite orb_true_r.
  - destruct (String.eqb_spec name EmptyString) as [->|_]; [done|].
    destruct (String.eqb_spec (Js.trim name) EmptyString) as [Htrim|_]; [|done].
    apply trim_empty_iff in Htrim. congruence.
Qed.

(** X26.  The route [/api/hello/:name] always answers: with status 400 and
    the error message when the name is made of white space only (the empty
    name included), and otherwise with status 200 and a greeting made of
    the name as it was given, blanks around it included. *)
Theorem handleHelloByName_status (name : string) :
  (forallb Js.is_space (list_ascii_of_string name) = true ->
   Server.handleHelloByName name
   = {| Server.response_status := 400;
        Server.response_body := [("error", "Name parameter is required")] |})
  /\ (forallb Js.is_space (list_ascii_of_string name) = false ->
      Server.handleHelloByName name
      = {| Server.response_status := 200;
           Server.response_body := [("message", "Hello, " +:+ name +:+ "!")] |}).
Proof. rewrite handleHelloByName_cases. by split; intros ->. Qed.

Lemma append_inj_tail (a b tail : string) : a +:+ tail = b +:+ tail -> a = b.
Proof.
  assert (Hlist : forall x y, list_ascii_of_string (x +:+ y)
                              = list_ascii_of_string x ++ list_ascii_of_string y).
  { intros x y. induction x as [|c x IH]; [done|].
    rewrite JsFacts.append_cons. cbn. by rewrite IH. }
  intros H. apply (f_equal list_ascii_of_string) in H. rewrite !Hlist in H.
  apply app_inv_tail in H.
  rewrite <- (string_of_list_ascii_of_string a), <- (string_of_list_ascii_of_string b).
  by rewrite H.
Qed.

(** X27.  The greeting tells the names apart: two names that are not blank
    and get the same answer are the same name. *)
Theorem handleHelloByName_injective (name other : string) :
  Js.trim name <> EmptyString ->
  Server.handleHelloByName name = Server.handleHelloByName other ->
  name = other.
Proof.
  intros Hname. rewrite !handleHelloByName_cases.
  destruct (forallb Js.is_space (list_ascii_of_string name)) eqn:Hblank.
  { by apply trim_spaces in Hblank. }
  destruct (forallb Js.is_space (list_ascii_of_string other)); [done|].
  intros [= H]. by apply (append_inj_tail _ _ "!").
Qed.

Lemma handleHelloByName_injective_witness : " Ada" = " Ada".
Proof. by apply (handleHelloByName_injective " Ada" " Ada"). Defined.

(** * The page *)

Section PageFacts.

Import Page.

Context {Err Json Data Issue : Type} (browser : Browser Err Json Data Issue).

Lemma decodeForm_Some (endpoint method : FormValue) (e m : string) :
  decodeForm endpoint method = Some (e, m) ->
  endpoint = FormString e /\ method = FormString m /\ e <> EmptyString
  /\ (m = "GET" \/ m = "PUT").
Proof.
  unfold decodeForm. destruct endpoint as [e'| |], method as [m'| |]; try done.
  destruct (String.eqb_spec e' EmptyString) as [->|He]; [done|]. cbn [negb andb].
  destruct (String.eqb_spec m' "GET") as [->|_]; [intros [= <- <-]; auto|].
  destruct (String.eqb_spec m' "PUT") as [->|_]; [intros [= <- <-]; auto|done].
Qed.

Lemma fetchApi_events (endpoint method : string) (event : PageEvent) :
  event ∈ (fetchApi browser endpoint method).1 ->
  (exists url, make_url browser endpoint = Some url /\ event = Fetch url method)
  \/ event = ReadJson \/ event = Validate.
Proof.
  unfold fetchApi. destruct (make_url browser endpoint) as [url|]; [|by intros ?%elem_of_nil].
  destruct (fetch browser url method) as [error|response]; cbn [fst].
  { rewrite list_elem_of_singleton. intros ->. left. eauto. }
  destruct (ok response); cbn [negb fst].
  2: { rewrite list_elem_of_singleton. intros ->. left. eauto. }
  destruct (json response) as [error|received]; [|destruct (decode browser received)];
    cbn [fst]; rewrite !elem_of_cons, elem_of_nil; intros H; decompose [or] H;
    subst; try done; first [by left; eexists | by right; left | by right; right].
Qed.

End PageFacts.

(** X28.  The page sends a request only for a form that is valid: the
    endpoint is a string that is not empty, from which the address was
    made, and the method is [GET] or [PUT].  For any other form nothing is
    sent and the text shown is the validation error. *)
Theorem request_only_for_valid_form {Err Json Data Issue : Type}
    (browser : Page.Browser Err Json Data Issue) (mounted : bool)
    (endpoint method : Page.FormValue) :
  (forall url sent,
     Page.Fetch url sent ∈ (Page.testEndpoint browser mounted endpoint method).1 ->
     exists e, endpoint = Page.FormString e /\ e <> EmptyString
               /\ Page.make_url browser e = Some url
               /\ method = Page.FormString sent /\ (sent = "GET" \/ sent = "PUT"))
  /\ (Page.decodeForm endpoint method = None ->
      Page.testEndpoint browser mounted endpoint method
      = (if mounted then [Page.ShowResponse "Validation Error: Invalid form data"] else [],
         true)).
Proof.
  split; [|by unfold Page.testEndpoint; intros ->].
  intros url sent. unfold Page.testEndpoint.
  destruct (Page.decodeForm endpoint method) as [[e m]|] eqn:Hform.
  - destruct (decodeForm_Some endpoint method e m Hform) as (-> & -> & He & Hm).
    pose proof (fetchApi_events browser e m (Page.Fetch url sent)) as Hevents.
    destruct (Page.fetchApi browser e m) as [events outcome].
    destruct (Page.describe browser outcome) as [text|]; cbn [fst] in *.
    + rewrite elem_of_app. intros [H|H].
      * destruct (Hevents H) as [(url' & Hurl & [= -> ->])|[?|?]]; try done.
        exists e. auto.
      * unfold Page.show in H. destruct mounted; [|by apply elem_of_nil in H].
        by apply list_elem_of_singleton in H.
    + intros H. destruct (Hevents H) as [(url' & Hurl & [= -> ->])|[?|?]]; try done.
      exists e. auto.
  - cbn [fst]. unfold Page.show. destruct mounted; [|by intros ?%elem_of_nil].
    by intros ?%list_elem_of_singleton.
Qed.

(** X29.  The body of a response is read only when the response is ok: a
    response with another status is answered at once with the line
    [HTTP <status>: <statusText>], whatever its body holds. *)
Theorem error_status_not_parsed {Err Json Data Issue : Type}
    (browser : Page.Browser Err Json Data Issue) (mounted : bool)
    (endpoint method url : string) (response : Page.HttpResponse Err Json) :
  endpoint <> EmptyString -> method = "GET" \/ method = "PUT" ->
  Page.make_url browser endpoint = Some url ->
  Page.fetch browser url method = inr response ->
  Page.ok response = false ->
  Page.testEndpoint browser mounted (Page.FormString endpoint) (Page.FormString method)
  = (Page.Fetch url method
       :: (if mounted
           then [Page.ShowResponse ("HTTP " +:+ pretty (Page.status response) +:+ ": "
                                    +:+ Page.statusText response)]
           else []),
     true).
Proof.
  intros He Hm Hurl Hfetch Hok. unfold Page.testEndpoint, Page.decodeForm.
  destruct (String.eqb_spec endpoint EmptyString); [done|].
  assert (String.eqb method "GET" || String.eqb method "PUT" = true) as ->
    by (by destruct Hm as [-> | ->]).
  cbn [negb andb]. unfold Page.fetchApi. rewrite Hurl, Hfetch, Hok. cbn.
  by destruct mounted.
Qed.

Lemma error_status_not_parsed_witness :
  Page.testEndpoint
    (sampleBrowser (inr {| Page.ok := false; Page.status := 404;
                           Page.statusText := "Not Found"; Page.json := inr "{}" |}))
    true (Page.FormString "/api/nothing") (Page.FormString "GET")
  = ([Page.Fetch "http://localhost:3000/api/nothing" "GET";
      Page.ShowResponse "HTTP 404: Not Found"], true).
Proof.
  exact (error_status_not_parsed
           (sampleBrowser (inr {| Page.ok := false; Page.status := 404;
                                  Page.statusText := "Not Found";
                                  Page.json := inr "{}" |}))
           true "/api/nothing" "GET" "http://localhost:3000/api/nothing"
           {| Page.ok := false; Page.status := 404;
              Page.statusText := "Not Found"; Page.json := inr "{}" |}
           ltac:(discriminate) (or_introl eq_refl) eq_refl eq_refl eq_refl).
Defined.

(** X30.  Every typed failure is turned into a line of text: for a valid
    form whose address can be made, the handler sends one request, shows
    one text when the text area is there, and its promise is fulfilled.
    The text is the data, or starts with [Network Error: ], [HTTP ] or
    [Parse Error: ].  Only an address that cannot be made gets through:
    then nothing is sent or shown and the promise is rejected. *)
Theorem every_failure_is_shown {Err Json Data Issue : Type}
    (browser : Page.Browser Err Json Data Issue) (mounted : bool)
    (endpoint method : Page.FormValue) (e m : string) :
  Page.decodeForm endpoint method = Some (e, m) ->
  match Page.make_url browser e with
  | None => Page.testEndpoint browser mounted endpoint method = ([], false)
  | Some url =>
      exists steps text,
        Page.testEndpoint browser mounted endpoint method
        = (Page.Fetch url m :: steps ++ (if mounted then [Page.ShowResponse text] else []),
           true)
        /\ Forall (fun event => event = Page.ReadJson \/ event = Page.Validate) steps
        /\ ((exists data, text = Page.stringify browser data)
            \/ Js.startsWith "Network Error: " text = true
            \/ Js.startsWith "HTTP " text = true
            \/ Js.startsWith "Parse Error: " text = true)
  end.
Proof.
  intros Hform. unfold Page.testEndpoint. rewrite Hform. unfold Page.fetchApi.
  destruct (Page.make_url browser e) as [url|]; [|done].
  destruct (Page.fetch browser url m) as [error|response].
  { exists [], ("Network Error: " +:+ "Failed to fetch " +:+ m +:+ " " +:+ e).
    split; [done|]. split; [done|]. right; left. apply JsFacts.startsWith_app. }
  destruct (Page.ok response); cbn [negb].
  2: { exists [], ("HTTP " +:+ pretty (Page.status response) +:+ ": "
                   +:+ Page.statusText response).
       split; [done|]. split; [done|]. right; right; left. apply JsFacts.startsWith_app. }
  destruct (Page.json response) as [error|received].
  { exists [Page.ReadJson], ("Parse Error: " +:+ "Failed to parse JSON response from " +:+ e).
    split; [done|]. split; [by repeat constructor; auto|].
    right; right; right. apply JsFacts.startsWith_app. }
  destruct (Page.decode browser received) as [issue|data].
  - exists [Page.ReadJson; Page.Validate],
           ("Parse Error: " +:+ "Response validation failed for " +:+ e).
    split; [done|]. split; [by repeat constructor; auto|].
    right; right; right. apply JsFacts.startsWith_app.
  - exists [Page.ReadJson; Page.Validate], (Page.stringify browser data).
    split; [done|]. split; [by repeat constructor; auto|]. left. by exists data.
Qed.

Lemma every_failure_is_shown_witness :
  exists steps text,
    Page.testEndpoint (sampleBrowser (inl "offline")) true
                      (Page.FormString "/api/hello") (Page.FormString "PUT")
    = (Page.Fetch "http://localhost:3000/api/hello" "PUT"
         :: steps ++ [Page.ShowResponse text], true)
    /\ Forall (fun event => event = Page.ReadJson \/ event = Page.Validate) steps.
Proof.
  destruct (every_failure_is_shown (sampleBrowser (inl "offline")) true
              (Page.FormString "/api/hello") (Page.FormString "PUT")
              "/api/hello" "PUT" eq_refl) as (steps & text & Hrun & Hsteps & _).
  by exists steps, text.
Defined.
